(** * os-find: a shallow embedding of [find.cpp]

    The program walks a directory tree breadth-first, keeps the
    non-directory entries that pass the configured attribute filters and
    optionally hands the matched paths to an external program.

    Conventions of the embedding (Linux on x86-64, LP64):
    - [ino_t], [nlink_t] and [unsigned long] are 64-bit unsigned, [off_t] and
      [int64_t] are 64-bit signed; all are carried as [Z] with the
      wrap-around written out where the code converts;
    - [std::string] is [string]; a [char*] that may be null is
      [option string];
    - the operating system is an explicit oracle ([filesystem], [world]);
    - output and system calls are recorded as a list of [event]s. *)

From Stdlib Require Import ZArith List String Ascii Bool Lia Permutation.
Import ListNotations.

Local Open Scope string_scope.
Local Open Scope list_scope.
Local Open Scope Z_scope.

(** ** C++ run-time: exceptions and undefined behaviour *)

Module Cxx.

(** The two exceptions [std::stoul] can raise; the payload is [what()]. *)
Inductive exn : Type :=
| invalid_argument (what : string)
| out_of_range (what : string).

(** Outcome of a computation that may throw or leave defined behaviour. *)
Inductive res (A : Type) : Type :=
| Ret (x : A)
| Throw (e : exn)
| Undef.

Arguments Ret {A} x.
Arguments Throw {A} e.
Arguments Undef {A}.

Definition bind {A B : Type} (m : res A) (k : A -> res B) : res B :=
  match m with
  | Ret x => k x
  | Throw e => Throw e
  | Undef => Undef
  end.

Definition ULONG_MAX : Z := 2 ^ 64 - 1.

(** [isspace] in the "C" locale: space, \t, \n, \v, \f, \r. *)
Definition isspace (c : ascii) : bool :=
  let n := Z.of_nat (nat_of_ascii c) in
  (n =? 32) || ((9 <=? n) && (n <=? 13)).

Definition isdigit (c : ascii) : bool :=
  let n := Z.of_nat (nat_of_ascii c) in
  (48 <=? n) && (n <=? 57).

Definition digit_val (c : ascii) : Z := Z.of_nat (nat_of_ascii c) - 48.

Fixpoint skip_space (s : string) : string :=
  match s with
  | String c r => if isspace c then skip_space r else s
  | EmptyString => s
  end.

(** Value of the longest prefix of decimal digits, continuing [acc]. *)
Fixpoint digits_acc (s : string) (acc : Z) : Z :=
  match s with
  | String c r => if isdigit c then digits_acc r (10 * acc + digit_val c) else acc
  | EmptyString => acc
  end.

Definition starts_with_digit (s : string) : bool :=
  match s with
  | String c _ => isdigit c
  | EmptyString => false
  end.

(** An optional sign; returns whether it was a minus and what follows. *)
Definition strip_sign (s : string) : bool * string :=
  match s with
  | String "-"%char r => (true, r)
  | String "+"%char r => (false, r)
  | _ => (false, s)
  end.

(** [std::stoul(str)] (position pointer null, base 10), that is [strtoul]:
    leading white space is skipped, one sign is allowed, then the longest
    run of digits is converted and whatever follows is ignored.  No digit at
    all raises [invalid_argument]; a magnitude above [ULONG_MAX] raises
    [out_of_range]; a minus sign negates the magnitude in the unsigned
    type. *)
Definition stoul (str : string) : res Z :=
  let '(neg, body) := strip_sign (skip_space str) in
  if starts_with_digit body then
    let v := digits_acc body 0 in
    if ULONG_MAX <? v then Throw (out_of_range "stoul")
    else Ret (if neg then (- v) mod 2 ^ 64 else v)
  else Throw (invalid_argument "stoul").

End Cxx.

Import Cxx.

Notation "x <- m ;; k" := (bind m (fun x => k))
  (at level 61, m at next level, right associativity).

(** ** Configuration: [struct usage] and the parse-error globals *)

Definition NOSIZE : Z := 2 ^ 63 - 1.   (* INT64_MAX *)

Record usage : Type := mk_usage {
  path : string;
  needs_inum : Z;
  inum : Z;            (* ino_t *)
  needs_name : Z;
  name : string;
  size_sign : Z;       (* int64_t *)
  size : Z;            (* off_t *)
  needs_nlinks : Z;
  nlinks : Z;          (* nlink_t *)
  needs_exec : Z;
  exec_path : string
}.

(** [usage arguments;]: the members with initialisers get them; [inum],
    [size] and [nlinks] are left indeterminate (0 here; [check] reads each of
    them only behind its own flag, so the choice is immaterial). *)
Definition usage_default : usage :=
  {| path := ""; needs_inum := 0; inum := 0; needs_name := 0; name := "";
     size_sign := NOSIZE; size := 0; needs_nlinks := 0; nlinks := 0;
     needs_exec := 0; exec_path := "" |}.

Definition set_path (v : string) (a : usage) : usage :=
  mk_usage v (needs_inum a) (inum a) (needs_name a) (name a) (size_sign a)
           (size a) (needs_nlinks a) (nlinks a) (needs_exec a) (exec_path a).

Definition set_inum (flag v : Z) (a : usage) : usage :=
  mk_usage (path a) flag v (needs_name a) (name a) (size_sign a)
           (size a) (needs_nlinks a) (nlinks a) (needs_exec a) (exec_path a).

Definition set_name (flag : Z) (v : string) (a : usage) : usage :=
  mk_usage (path a) (needs_inum a) (inum a) flag v (size_sign a)
           (size a) (needs_nlinks a) (nlinks a) (needs_exec a) (exec_path a).

Definition set_size (sign v : Z) (a : usage) : usage :=
  mk_usage (path a) (needs_inum a) (inum a) (needs_name a) (name a) sign
           v (needs_nlinks a) (nlinks a) (needs_exec a) (exec_path a).

Definition set_nlinks (flag v : Z) (a : usage) : usage :=
  mk_usage (path a) (needs_inum a) (inum a) (needs_name a) (name a) (size_sign a)
           (size a) flag v (needs_exec a) (exec_path a).

Definition set_exec (flag : Z) (v : string) (a : usage) : usage :=
  mk_usage (path a) (needs_inum a) (inum a) (needs_name a) (name a) (size_sign a)
           (size a) (needs_nlinks a) (nlinks a) flag v.

(** [static bool ok = true; static std::string reason;] *)
Record globals : Type := { ok : bool; reason : string }.

Definition globals_init : globals := {| ok := true; reason := "" |}.

Definition dquote : string := String (ascii_of_nat 34) "".

Definition reason_size : string :=
  ("Wrong usage of " ++ dquote ++ "size" ++ dquote ++ " option")%string.

Definition reason_unknown : string := "Unknown option".

(** Conversion of an [unsigned long] to the signed 64-bit [off_t]. *)
Definition to_off_t (v : Z) : Z :=
  if v <? 2 ^ 63 then v else v - 2 ^ 64.

(** [value[0]]: the terminating NUL when the string is empty. *)
Definition first_char (s : string) : ascii :=
  match s with
  | String c _ => c
  | EmptyString => zero
  end.

(** [value.substr(1)], used only after [value[0]] was a sign character. *)
Definition substr1 (s : string) : string :=
  match s with
  | String _ r => r
  | EmptyString => EmptyString
  end.

(** ** [parse_arguments] *)

(** The loop [for (i = 2; i < argc; i += 2)] over [l], the arguments
    [argv[i], ..., argv[argc-1]] still to be read.  [i < argc] holds iff [l]
    is not empty; [argv[i]] is its head and [argv[i + 1]] the next element,
    or, when there is none, [argv[argc]], the null pointer that ends [argv]:
    constructing a [std::string] from it is undefined. *)
Fixpoint parse_options (l : list string) (arguments : usage) (g : globals)
  : res (usage * globals) :=
  match l with
  | [] => Ret (arguments, g)
  | opt :: tl =>
    match tl with
    | [] => Undef
    | value :: rest =>
      if (opt =? "-inum")%string then
        v <- stoul value ;;
        parse_options rest (set_inum 1 v arguments) g
      else if (opt =? "-name")%string then
        parse_options rest (set_name 1 value arguments) g
      else if (opt =? "-size")%string then
        let sign := first_char value in
        if (sign =? "-")%char then
          v <- stoul (substr1 value) ;;
          parse_options rest (set_size (-1) (to_off_t v) arguments) g
        else if (sign =? "=")%char then
          v <- stoul (substr1 value) ;;
          parse_options rest (set_size 0 (to_off_t v) arguments) g
        else if (sign =? "+")%char then
          v <- stoul (substr1 value) ;;
          parse_options rest (set_size 1 (to_off_t v) arguments) g
        else
          Ret (arguments, {| ok := false; reason := reason_size |})
      else if (opt =? "-nlinks")%string then
        v <- stoul value ;;
        parse_options rest (set_nlinks 1 v arguments) g
      else if (opt =? "-exec")%string then
        parse_options rest (set_exec 1 value arguments) g
      else
        Ret (arguments, {| ok := false; reason := reason_unknown |})
    end
  end.

(** [argv] is the list [argv[0], ..., argv[argc-1]]; [argv[1]] is the null
    pointer when [argc <= 1], and assigning it to [arguments.path] is
    undefined. *)
Definition parse_arguments (argv : list string) (g : globals)
  : res (usage * globals) :=
  match nth_error argv 1 with
  | None => Undef
  | Some root => parse_options (skipn 2 argv) (set_path root usage_default) g
  end.

(** ** The operating system as seen by the program *)

(** The members of [struct stat] the program reads. *)
Record stat : Type := {
  st_ino : Z;
  st_mode : Z;
  st_nlink : Z;
  st_size : Z
}.

Definition S_IFMT : Z := 61440.    (* 0170000 *)
Definition S_IFDIR : Z := 16384.   (* 0040000 *)

Definition S_ISDIR (mode : Z) : bool := Z.land mode S_IFMT =? S_IFDIR.

(** What the system answers: [opendir] followed by [readdir] until it
    returns null gives the [d_name]s of a directory in listing order ([None]
    when the directory cannot be opened); [lstat] gives the metadata of the
    path itself, never of a link's target ([None] for a return of -1). *)
Record filesystem : Type := {
  opendir : string -> option (list string);
  lstat : string -> option stat
}.

(** Observable actions, in program order. *)
Inductive event : Type :=
| Cout (line : string)                  (* std::cout << line << std::endl *)
| Cerr (line : string)                  (* std::cerr << line << std::endl *)
| Perror (prefix : string)              (* perror(prefix) *)
| Printf (format : string) (arg : option Z)
| SysOpendir (dir : string)
| SysLstat (file : string)
| SysClosedir (dir : string)
| SysFork
| SysExecv (file : string) (args : list (option string))
| SysWaitpid.

(** ** [check] *)

(** [satisfy &= c] on [bool] operands. *)
Definition and_assign (satisfy c : bool) : bool := satisfy && c.

Definition check (arguments : usage) (sb : stat) (nm : string) : bool :=
  let satisfy := true in
  let satisfy :=
    if negb (needs_nlinks arguments =? 0)
    then and_assign satisfy (nlinks arguments =? st_nlink sb) else satisfy in
  let satisfy :=
    if negb (needs_name arguments =? 0)
    then and_assign satisfy (name arguments =? nm)%string else satisfy in
  let satisfy :=
    if negb (needs_inum arguments =? 0)
    then and_assign satisfy (inum arguments =? st_ino sb) else satisfy in
  let satisfy :=
    if negb (size_sign arguments =? NOSIZE) then
      if size_sign arguments =? -1 then
        and_assign satisfy (st_size sb <? size arguments)
      else if size_sign arguments =? 0 then
        and_assign satisfy (st_size sb =? size arguments)
      else if size_sign arguments =? 1 then
        and_assign satisfy (st_size sb >? size arguments)
      else satisfy
    else satisfy in
  satisfy.

(** ** [find] *)

(** The local state of [find]: the FIFO of directories still to expand, the
    vector [result] it appends to, and the events it has caused. *)
Record walk_state : Type := {
  queue : list string;
  result : list string;
  events : list event
}.

Definition emit (es : list event) (st : walk_state) : walk_state :=
  {| queue := queue st; result := result st; events := events st ++ es |}.

Definition queue_push (p : string) (st : walk_state) : walk_state :=
  {| queue := queue st ++ [p]; result := result st; events := events st |}.

Definition result_push_back (p : string) (st : walk_state) : walk_state :=
  {| queue := queue st; result := result st ++ [p]; events := events st |}.

Definition child_path (cur_dir relative_path : string) : string :=
  (cur_dir ++ "/" ++ relative_path)%string.

(** One pass of the body of [while ((entry = readdir(dir)) != nullptr)]. *)
Definition visit (fs : filesystem) (arguments : usage) (cur_dir : string)
  (relative_path : string) (st : walk_state) : walk_state :=
  if ((relative_path =? ".") || (relative_path =? ".."))%string then st
  else
    let p := child_path cur_dir relative_path in
    let st := emit [SysLstat p] st in
    match lstat fs p with
    | None => emit [Perror "lstat"] st
    | Some sb =>
      if S_ISDIR (st_mode sb) then queue_push p st
      else if check arguments sb relative_path then result_push_back p st
      else st
    end.

(** The inner loop over the entries [readdir] still has to return. *)
Fixpoint scan (fs : filesystem) (arguments : usage) (cur_dir : string)
  (entries : list string) (st : walk_state) : walk_state :=
  match entries with
  | [] => st
  | relative_path :: rest =>
    scan fs arguments cur_dir rest (visit fs arguments cur_dir relative_path st)
  end.

(** One pass of the body of [while (!queue.empty())], on a non-empty queue
    whose front is [cur_dir] and whose rest is [q]. *)
Definition expand (fs : filesystem) (arguments : usage) (cur_dir : string)
  (q : list string) (st : walk_state) : walk_state :=
  let st := {| queue := q; result := result st; events := events st |} in
  let st := emit [SysOpendir cur_dir] st in
  match opendir fs cur_dir with
  | None => emit [Perror "opendir"] st
  | Some entries =>
    emit [SysClosedir cur_dir] (scan fs arguments cur_dir entries st)
  end.

(** The outer loop, cut off after [fuel] passes: the state reached, whether
    or not the queue has drained by then. *)
Fixpoint walk (fuel : nat) (fs : filesystem) (arguments : usage)
  (st : walk_state) : walk_state :=
  match fuel with
  | O => st
  | S fuel' =>
    match queue st with
    | [] => st
    | cur_dir :: q => walk fuel' fs arguments (expand fs arguments cur_dir q st)
    end
  end.

Definition walk_init (arguments : usage) (result0 : list string) : walk_state :=
  {| queue := [path arguments]; result := result0; events := [] |}.

(** [find(arguments, result)], cut off after [fuel] passes of the outer loop:
    the call has returned iff the queue of the state is empty ([finished]). *)
Definition find (fuel : nat) (fs : filesystem) (arguments : usage)
  (result0 : list string) : walk_state :=
  walk fuel fs arguments (walk_init arguments result0).

Definition finished (st : walk_state) : bool :=
  match queue st with
  | [] => true
  | _ :: _ => false
  end.

(** ** [execute] *)

(** How a process ends. *)
Inductive termination : Type :=
| Exit (code : Z)                       (* exit(code), or return from main *)
| Terminate (e : exn)                   (* uncaught exception: std::terminate *)
| UndefinedBehaviour
| Replaced (file : string) (args : list (option string))  (* execv succeeded *)
| Unfinished.                           (* still looping or blocked *)

Definition EXIT_FAILURE : Z := 1.

(** The rest of the system: the file system, the number of passes [find] is
    followed for, what [fork] returns in the process that is observed, what
    [execv] returns there ([None]: it does not return), and the successive
    returns of [waitpid] with the status each stores. *)
Record world : Type := {
  fs : filesystem;
  fuel : nat;
  fork_ret : Z;
  execv_ret : option Z;
  waits : list (Z * Z)
}.

(** The status macros of <sys/wait.h>. *)
Definition WEXITSTATUS (status : Z) : Z := Z.shiftr (Z.land status 65280) 8.
Definition WTERMSIG (status : Z) : Z := Z.land status 127.
Definition WSTOPSIG (status : Z) : Z := WEXITSTATUS status.
Definition WIFEXITED (status : Z) : bool := WTERMSIG status =? 0.
Definition WIFSIGNALED (status : Z) : bool :=
  (1 <=? WTERMSIG status) && (WTERMSIG status <=? 126).
Definition WIFSTOPPED (status : Z) : bool := Z.land status 255 =? 127.
Definition WIFCONTINUED (status : Z) : bool := status =? 65535.

Definition newline : string := String (ascii_of_nat 10) "".
Definition tab : string := String (ascii_of_nat 9) "".

Definition report (status : Z) : list event :=
  if WIFEXITED status then
    [Printf ("Normal exited, status = %d" ++ newline)%string (Some (WEXITSTATUS status))]
  else if WIFSIGNALED status then
    [Printf ("Was killed by signal %d" ++ newline)%string (Some (WTERMSIG status))]
  else if WIFSTOPPED status then
    [Printf ("Was stopped by signal %d" ++ newline)%string (Some (WSTOPSIG status))]
  else if WIFCONTINUED status then
    [Printf ("Was continued" ++ newline)%string None]
  else [].

(** The parent's [do ... while (!WIFEXITED(status) && !WIFSIGNALED(status))];
    [None] as termination means the loop ended and [execute] returns. *)
Fixpoint wait_loop (ws : list (Z * Z)) : list event * option termination :=
  match ws with
  | [] => ([SysWaitpid], Some Unfinished)
  | (wait_pid, status) :: rest =>
    if wait_pid =? -1 then ([SysWaitpid; Perror "waitpid"], Some (Exit EXIT_FAILURE))
    else if negb (WIFEXITED status) && negb (WIFSIGNALED status) then
      let '(es, t) := wait_loop rest in
      (SysWaitpid :: report status ++ es, t)
    else (SysWaitpid :: report status, None)
  end.

(** The vector [args] the child builds: one [push_back] of the address of
    each file's characters, then [emplace_back(nullptr)]. *)
Definition build_args (result : list string) : list (option string) :=
  let args := fold_left (fun args file => args ++ [Some file]) result [] in
  args ++ [None].

Definition execute (w : world) (filepath : string) (result : list string)
  : list event * option termination :=
  let pid := fork_ret w in
  if pid =? -1 then ([SysFork; Perror "fork"], Some (Exit EXIT_FAILURE))
  else if pid =? 0 then
    let args := build_args result in
    match execv_ret w with
    | None => ([SysFork; SysExecv filepath args], Some (Replaced filepath args))
    | Some err =>
      if err =? -1
      then ([SysFork; SysExecv filepath args; Perror "execv"], Some (Exit EXIT_FAILURE))
      else ([SysFork; SysExecv filepath args], None)
    end
  else
    let '(es, t) := wait_loop (waits w) in (SysFork :: es, t).

(** ** [main] *)

Definition help : string :=
  ("Usage:"
  ++ newline ++ tab ++ "path [options] - find files by path with options."
  ++ newline ++ newline ++ tab ++ "Options:"
  ++ newline ++ tab ++ tab ++ "-inum inum - inode number;"
  ++ newline ++ tab ++ tab ++ "-name name - file name;"
  ++ newline ++ tab ++ tab ++ "-size [-=+]size - file's size(less, equal, more);"
  ++ newline ++ tab ++ tab ++ "-nlinks num - file's hardlinks;"
  ++ newline ++ tab ++ tab ++ "-exec path - file to execute;" ++ newline)%string.

Definition warning : string := "Wrong usage, see help".

(** The events of the run and how it ends, for the command line [argv]
    ([argc] is its length). *)
Definition main (w : world) (argv : list string) : list event * termination :=
  let argc := Z.of_nat (List.length argv) in
  let out := [Cout help] in
  let out := if argc <=? 1 then out ++ [Cout warning] else out in
  match parse_arguments argv globals_init with
  | Throw e => (out, Terminate e)
  | Undef => (out, UndefinedBehaviour)
  | Ret (arguments, g) =>
    if negb (ok g) then
      (out ++ [Cerr (reason g ++ ", see help")%string], Exit EXIT_FAILURE)
    else
      let st := find (fuel w) (fs w) arguments [] in
      if negb (finished st) then (out ++ events st, Unfinished)
      else
        let out := out ++ events st ++ map Cout (result st) in
        if negb (needs_exec arguments =? 0) then
          match execute w (exec_path arguments) (result st) with
          | (es, Some t) => (out ++ es, t)
          | (es, None) => (out ++ es, Exit 0)
          end
        else (out, Exit 0)
  end.

(** ** A small tree used to run the definitions

    [root] holds the file [a.txt] (50 bytes), the directory [locked] that
    cannot be opened, the directory [sub] with the file [b.txt] (150 bytes),
    and the name [gone] that cannot be examined. *)

Module Demo.

Definition regular (ino sz : Z) : stat :=
  {| st_ino := ino; st_mode := 33188; st_nlink := 1; st_size := sz |}.

Definition directory (ino : Z) : stat :=
  {| st_ino := ino; st_mode := 16877; st_nlink := 2; st_size := 4096 |}.

Definition tree : filesystem :=
  {| opendir := fun p =>
       if (p =? "root")%string
       then Some ["."; ".."; "a.txt"; "locked"; "gone"; "sub"]
       else if (p =? "root/sub")%string then Some ["."; ".."; "b.txt"]
       else None;
     lstat := fun p =>
       if (p =? "root/a.txt")%string then Some (regular 11 50)
       else if (p =? "root/locked")%string then Some (directory 12)
       else if (p =? "root/sub")%string then Some (directory 13)
       else if (p =? "root/sub/b.txt")%string then Some (regular 14 150)
       else None |}.

Definition system : world :=
  {| fs := tree; fuel := 8; fork_ret := 0; execv_ret := None; waits := [] |}.

End Demo.

(** ** The filter set of the specification

    The specification describes a configuration as a set of optional
    filters, each present or absent, and a match as the conjunction of the
    present ones.  These definitions follow that wording; [check] is compared
    with them below. *)

Inductive filter : Type :=
| InumIs (n : Z)
| NameIs (s : string)
| SizeIs (c : comparison) (n : Z)     (* Lt: less than, Eq, Gt: greater than *)
| NlinksIs (n : Z).

Definition spec_satisfies (sb : stat) (nm : string) (f : filter) : bool :=
  match f with
  | InumIs n => st_ino sb =? n
  | NameIs s => (nm =? s)%string
  | SizeIs Lt n => st_size sb <? n
  | SizeIs Eq n => st_size sb =? n
  | SizeIs Gt n => n <? st_size sb
  | NlinksIs n => st_nlink sb =? n
  end.

(** The filters a [usage] has configured, in the order of the data model. *)
Definition spec_active_filters (a : usage) : list filter :=
  (if needs_inum a =? 0 then [] else [InumIs (inum a)])
  ++ (if needs_name a =? 0 then [] else [NameIs (name a)])
  ++ (if size_sign a =? -1 then [SizeIs Lt (size a)]
      else if size_sign a =? 0 then [SizeIs Eq (size a)]
      else if size_sign a =? 1 then [SizeIs Gt (size a)]
      else [])
  ++ (if needs_nlinks a =? 0 then [] else [NlinksIs (nlinks a)]).

Definition spec_matches (fl : list filter) (sb : stat) (nm : string) : bool :=
  forallb (spec_satisfies sb nm) fl.

(** ** Vocabulary for command lines *)


(** The arguments in flag position: [argv[2]], [argv[4]], ... given as the
    elements at even offsets of the option tail. *)
Fixpoint flags_of (l : list string) : list string :=
  match l with
  | [] => []
  | f :: tl =>
    f :: match tl with
         | [] => []
         | _ :: rest => flags_of rest
         end
  end.

(** A non-empty string of decimal digits. *)
Fixpoint all_digits (s : string) : bool :=
  match s with
  | EmptyString => true
  | String c r => isdigit c && all_digits r
  end.

Definition is_number (s : string) : bool :=
  starts_with_digit s && all_digits s.

(** The text [std::stoul] is applied to for a pair, when the pair reaches a
    numeric conversion. *)
Definition numeric_text (flag value : string) : option string :=
  if ((flag =? "-inum") || (flag =? "-nlinks"))%string then Some value
  else if (flag =? "-size")%string then
    let c := first_char value in
    if ((c =? "-") || (c =? "=") || (c =? "+"))%char then Some (substr1 value)
    else None
  else None.

(** The values [size_sign] is meant to take: no size filter, or one of the
    three comparisons. *)
Definition size_sign_ok (a : usage) : Prop :=
  size_sign a = NOSIZE \/ size_sign a = -1 \/ size_sign a = 0 \/ size_sign a = 1.

(** ** Vocabulary for the walk *)

Definition dot_entry (relative_path : string) : bool :=
  ((relative_path =? ".") || (relative_path =? ".."))%string.

(** The paths one listing appends to the queue, and to [result]. *)
Fixpoint listed_dirs (fs : filesystem) (cur_dir : string) (entries : list string)
  : list string :=
  match entries with
  | [] => []
  | rel :: rest =>
    let more := listed_dirs fs cur_dir rest in
    if dot_entry rel then more
    else match lstat fs (child_path cur_dir rel) with
         | Some sb => if S_ISDIR (st_mode sb) then child_path cur_dir rel :: more else more
         | None => more
         end
  end.

Fixpoint listed_hits (fs : filesystem) (a : usage) (cur_dir : string)
  (entries : list string) : list string :=
  match entries with
  | [] => []
  | rel :: rest =>
    let more := listed_hits fs a cur_dir rest in
    if dot_entry rel then more
    else match lstat fs (child_path cur_dir rel) with
         | Some sb =>
           if S_ISDIR (st_mode sb) then more
           else if check a sb rel then child_path cur_dir rel :: more else more
         | None => more
         end
  end.

(** [Reach fs d d']: [d'] is [d] or lies below it through directories that
    could be opened and children that could be examined. *)
Inductive Reach (fs : filesystem) : string -> string -> Prop :=
| Reach_here (d : string) : Reach fs d d
| Reach_down (d : string) (entries : list string) (rel : string) (sb : stat)
    (d' : string) :
    opendir fs d = Some entries ->
    In rel entries ->
    dot_entry rel = false ->
    lstat fs (child_path d rel) = Some sb ->
    S_ISDIR (st_mode sb) = true ->
    Reach fs (child_path d rel) d' ->
    Reach fs d d'.

(** A path recorded as a match: a child that [lstat] showed not to be a
    directory and that [check] accepted under its base name. *)
Definition matched_entry (fs : filesystem) (a : usage) (p : string) : Prop :=
  exists d rel sb,
    p = child_path d rel /\ lstat fs p = Some sb /\
    S_ISDIR (st_mode sb) = false /\ check a sb rel = true.

(** A path put on the queue: the root, or a child that [lstat] showed to be
    a directory. *)
Definition queued_entry (fs : filesystem) (a : usage) (p : string) : Prop :=
  p = path a \/ exists sb, lstat fs p = Some sb /\ S_ISDIR (st_mode sb) = true.

Definition is_opendir (e : event) : bool :=
  match e with SysOpendir _ => true | _ => false end.

(** ** Vocabulary for further properties *)

(** A configuration whose members fit their C types: flags are 0 or 1, the
    sign is one the parser writes, and a configured number lies in the range
    of [ino_t], [nlink_t] (unsigned 64-bit) or [off_t] (signed 64-bit). *)
Definition usage_wf (a : usage) : Prop :=
  (needs_inum a = 0 \/ needs_inum a = 1)
  /\ (needs_name a = 0 \/ needs_name a = 1)
  /\ (needs_nlinks a = 0 \/ needs_nlinks a = 1)
  /\ (needs_exec a = 0 \/ needs_exec a = 1)
  /\ size_sign_ok a
  /\ (needs_inum a = 1 -> 0 <= inum a < 2 ^ 64)
  /\ (needs_nlinks a = 1 -> 0 <= nlinks a < 2 ^ 64)
  /\ (size_sign a <> NOSIZE -> - 2 ^ 63 <= size a < 2 ^ 63).

(** A pair the parser accepts when it stands alone after the root path, and
    a list of arguments made of such pairs. *)
Definition pair_accepted (flag value : string) : bool :=
  match parse_options [flag; value] usage_default globals_init with
  | Ret (_, g) => ok g
  | _ => false
  end.

Fixpoint pairs_accepted (l : list string) : bool :=
  match l with
  | [] => true
  | flag :: tl =>
    match tl with
    | [] => false
    | value :: rest => pair_accepted flag value && pairs_accepted rest
    end
  end.

(** The directories one pass of the outer loop appends to the queue for
    [d], and the paths it appends to [result]. *)
Definition children (fs : filesystem) (d : string) : list string :=
  match opendir fs d with
  | Some entries => listed_dirs fs d entries
  | None => []
  end.

Definition hits (fs : filesystem) (a : usage) (d : string) : list string :=
  match opendir fs d with
  | Some entries => listed_hits fs a d entries
  | None => []
  end.

(** The directories at depth [k] below [root], in queue order. *)
Fixpoint level (fs : filesystem) (root : string) (k : nat) : list string :=
  match k with
  | O => [root]
  | S k' => flat_map (children fs) (level fs root k')
  end.

(** The directories of depth below [k], level after level. *)
Fixpoint levels_below (fs : filesystem) (root : string) (k : nat) : list string :=
  match k with
  | O => []
  | S k' => levels_below fs root k' ++ level fs root k'
  end.

(** An entry the walk is meant to report: an accepted non-directory child
    listed in a directory that can be opened and reached from the root. *)
Definition reported_entry (fs : filesystem) (a : usage) (p : string) : Prop :=
  exists d entries rel sb,
    Reach fs (path a) d /\ opendir fs d = Some entries /\ In rel entries /\
    dot_entry rel = false /\ p = child_path d rel /\
    lstat fs p = Some sb /\ S_ISDIR (st_mode sb) = false /\
    check a sb rel = true.

(** What [find] may do: open and close directories reachable from the root,
    examine children listed in them other than [.] and [..], and report the
    failure of either call. *)
Definition walk_event (fs : filesystem) (a : usage) (e : event) : Prop :=
  match e with
  | SysOpendir d => Reach fs (path a) d
  | SysClosedir d => Reach fs (path a) d /\ opendir fs d <> None
  | SysLstat p =>
    exists d entries rel,
      Reach fs (path a) d /\ opendir fs d = Some entries /\ In rel entries /\
      dot_entry rel = false /\ p = child_path d rel
  | Perror s => s = "opendir" \/ s = "lstat"
  | _ => False
  end.

(** The events of one pass of the inner loop, and of one pass of the outer
    loop for the directory [d]. *)
Definition visit_events (fs : filesystem) (d rel : string) : list event :=
  if dot_entry rel then []
  else SysLstat (child_path d rel)
       :: match lstat fs (child_path d rel) with
          | None => [Perror "lstat"]
          | Some _ => []
          end.

Definition pass_events (fs : filesystem) (d : string) : list event :=
  SysOpendir d
  :: match opendir fs d with
     | Some entries => flat_map (visit_events fs d) entries ++ [SysClosedir d]
     | None => [Perror "opendir"]
     end.

Definition count (f : event -> bool) (es : list event) : nat :=
  List.length (List.filter f es).

Definition is_closedir (e : event) : bool :=
  match e with SysClosedir _ => true | _ => false end.

Definition is_perror (prefix : string) (e : event) : bool :=
  match e with Perror s => (s =? prefix)%string | _ => false end.

Definition is_execv (e : event) : bool :=
  match e with SysExecv _ _ => true | _ => false end.

Definition is_waitpid (e : event) : bool :=
  match e with SysWaitpid => true | _ => false end.

(** The events of one pass of the parent's waiting loop that got a status. *)
Definition wait_events (r : Z * Z) : list event :=
  SysWaitpid :: report (snd r).

(** A [waitpid] return that ends the waiting: no error, and a status that is
    a normal exit or a death by signal. *)
Definition ends_waiting (r : Z * Z) : bool :=
  negb (fst r =? -1) && (WIFEXITED (snd r) || WIFSIGNALED (snd r)).

(** A [waitpid] return that keeps the parent waiting: no error, and a status
    that is neither a normal exit nor a death by signal. *)
Definition keeps_waiting (r : Z * Z) : bool :=
  negb (fst r =? -1) && negb (WIFEXITED (snd r)) && negb (WIFSIGNALED (snd r)).

(** * Properties *)

(** ** The matcher *)

Lemma spec_matches_perm (sb : stat) (nm : string) (l l' : list filter) :
  Permutation l l' -> spec_matches l sb nm = spec_matches l' sb nm.
Proof.
  unfold spec_matches.
  induction 1 as [| f l l' _ IH | f f' l | l l' l'' _ IH1 _ IH2]; simpl.
  - reflexivity.
  - now rewrite IH.
  - destruct (spec_satisfies sb nm f), (spec_satisfies sb nm f'); reflexivity.
  - now rewrite IH1.
Qed.

Lemma check_spec (a : usage) (sb : stat) (nm : string) :
  check a sb nm = spec_matches (spec_active_filters a) sb nm.
Proof.
  unfold check, spec_matches, spec_active_filters, and_assign.
  rewrite !forallb_app.
  rewrite (Z.eqb_sym (nlinks a)), (Z.eqb_sym (inum a)), (String.eqb_sym (name a)).
  rewrite Z.gtb_ltb.
  destruct (size_sign a =? NOSIZE) eqn:En.
  - apply Z.eqb_eq in En. rewrite En.
    change (NOSIZE =? -1) with false. change (NOSIZE =? 0) with false.
    change (NOSIZE =? 1) with false.
    destruct (needs_nlinks a =? 0), (needs_name a =? 0), (needs_inum a =? 0);
      simpl;
      destruct (st_nlink sb =? nlinks a), (nm =? name a)%string,
        (st_ino sb =? inum a); reflexivity.
  - destruct (needs_nlinks a =? 0), (needs_name a =? 0), (needs_inum a =? 0),
      (size_sign a =? -1), (size_sign a =? 0), (size_sign a =? 1);
      simpl;
      destruct (st_nlink sb =? nlinks a), (nm =? name a)%string,
        (st_ino sb =? inum a), (st_size sb <? size a), (st_size sb =? size a),
        (size a <? st_size sb); reflexivity.
Qed.

Lemma check_unconfigured (a : usage) (sb : stat) (nm : string) :
  needs_inum a = 0 -> needs_name a = 0 -> needs_nlinks a = 0 ->
  size_sign a = NOSIZE -> check a sb nm = true.
Proof.
  intros Hi Hn Hl Hs. unfold check. rewrite Hi, Hn, Hl, Hs. reflexivity.
Qed.

(** C1: [check] returns true exactly when the entry satisfies every
    configured filter.  It equals the conjunction of the active filters of
    the specification taken in any order, it is true when nothing is
    configured, and the stored value of a filter that is not configured
    (flag 0, or sign [NOSIZE]) does not influence the result. *)
Theorem check_is_conjunction_of_active_filters
  (a : usage) (sb : stat) (nm : string) :
  (check a sb nm = true <->
   forall f, In f (spec_active_filters a) -> spec_satisfies sb nm f = true)
  /\ (forall fl, Permutation fl (spec_active_filters a) ->
                 spec_matches fl sb nm = check a sb nm)
  /\ (needs_inum a = 0 -> needs_name a = 0 -> needs_nlinks a = 0 ->
      size_sign a = NOSIZE ->
      spec_active_filters a = [] /\ check a sb nm = true)
  /\ (forall v v', check (set_inum 0 v a) sb nm = check (set_inum 0 v' a) sb nm)
  /\ (forall s s', check (set_name 0 s a) sb nm = check (set_name 0 s' a) sb nm)
  /\ (forall v v', check (set_nlinks 0 v a) sb nm = check (set_nlinks 0 v' a) sb nm)
  /\ (forall v v',
         check (set_size NOSIZE v a) sb nm = check (set_size NOSIZE v' a) sb nm).
Proof.
  repeat split.
  - rewrite check_spec. unfold spec_matches. rewrite forallb_forall. auto.
  - rewrite check_spec. unfold spec_matches. rewrite forallb_forall. auto.
  - intros fl Hp. rewrite check_spec. now apply spec_matches_perm.
  - unfold spec_active_filters. rewrite H, H0, H1, H2. reflexivity.
  - now apply check_unconfigured.
Qed.

Lemma check_is_conjunction_of_active_filters_witness :
  let a := set_name 1 "b.txt" (set_size 1 100 (set_path "root" usage_default)) in
  let sb := Demo.regular 14 150 in
  check a sb "b.txt" = true
  /\ spec_matches [SizeIs Gt 100; NameIs "b.txt"] sb "b.txt" = true
  /\ check (set_path "root" usage_default) sb "b.txt" = true.
Proof.
  intros a sb.
  destruct (check_is_conjunction_of_active_filters a sb "b.txt")
    as (Hiff & Hperm & _).
  destruct (check_is_conjunction_of_active_filters
              (set_path "root" usage_default) sb "b.txt")
    as (_ & _ & Hnone & _).
  split; [| split].
  - apply Hiff. intros f Hf. simpl in Hf.
    destruct Hf as [<- | [<- | []]]; reflexivity.
  - rewrite (Hperm [SizeIs Gt 100; NameIs "b.txt"]).
    + reflexivity.
    + apply perm_swap.
  - apply Hnone; reflexivity.
Defined.

(** ** The parser *)

Lemma pairs_ind (A : Type) (P : list A -> Prop) :
  P [] -> (forall x, P [x]) -> (forall x y l, P l -> P (x :: y :: l)) ->
  forall l, P l.
Proof.
  intros H0 H1 H2.
  assert (H : forall l, P l /\ forall x, P (x :: l)).
  { induction l as [| y l [IH IH']]; split; auto. }
  intro l. apply H.
Qed.

(** Case analysis on the flag and, for [-size], on the sign character. *)
Ltac flag_cases opt value :=
  destruct (opt =? "-inum")%string eqn:?;
  [| destruct (opt =? "-name")%string eqn:?;
     [| destruct (opt =? "-size")%string eqn:?;
        [ destruct (first_char value =? "-")%char eqn:?;
          [| destruct (first_char value =? "=")%char eqn:?;
             [| destruct (first_char value =? "+")%char eqn:? ]]
        | destruct (opt =? "-nlinks")%string eqn:?;
          [| destruct (opt =? "-exec")%string eqn:? ]]]].

Lemma parse_options_pair (opt value : string) (rest : list string)
  (a : usage) (g : globals) :
  parse_options (opt :: value :: rest) a g =
  if (opt =? "-inum")%string then
    v <- stoul value ;; parse_options rest (set_inum 1 v a) g
  else if (opt =? "-name")%string then parse_options rest (set_name 1 value a) g
  else if (opt =? "-size")%string then
    if (first_char value =? "-")%char then
      v <- stoul (substr1 value) ;; parse_options rest (set_size (-1) (to_off_t v) a) g
    else if (first_char value =? "=")%char then
      v <- stoul (substr1 value) ;; parse_options rest (set_size 0 (to_off_t v) a) g
    else if (first_char value =? "+")%char then
      v <- stoul (substr1 value) ;; parse_options rest (set_size 1 (to_off_t v) a) g
    else Ret (a, {| ok := false; reason := reason_size |})
  else if (opt =? "-nlinks")%string then
    v <- stoul value ;; parse_options rest (set_nlinks 1 v a) g
  else if (opt =? "-exec")%string then parse_options rest (set_exec 1 value a) g
  else Ret (a, {| ok := false; reason := reason_unknown |}).
Proof. reflexivity. Qed.

Lemma parse_options_size_sign (l : list string) :
  forall a0 g0 a g,
    size_sign_ok a0 -> parse_options l a0 g0 = Ret (a, g) -> size_sign_ok a.
Proof.
  induction l as [| x | opt value rest IH] using pairs_ind; intros a0 g0 a g H0 H.
  - simpl in H. now inversion H; subst.
  - discriminate H.
  - rewrite parse_options_pair in H.
    flag_cases opt value;
      try (destruct (stoul _) as [v | e |]; simpl in H; try discriminate H);
      try (eapply IH; [| exact H]; unfold size_sign_ok; simpl; tauto);
      try (inversion H; subst; assumption).
Qed.

(** A prefix of pairs that is accepted leaves the globals alone, and the
    loop goes on with what follows it. *)
Lemma parse_options_app (pre : list string) :
  forall a0 g0 a g l,
    ok g0 = true ->
    parse_options pre a0 g0 = Ret (a, g) -> ok g = true ->
    g = g0 /\ parse_options (pre ++ l) a0 g0 = parse_options l a g0.
Proof.
  induction pre as [| x | opt value rest IH] using pairs_ind;
    intros a0 g0 a g l Hg0 H Hg.
  - simpl in H. inversion H; subst. auto.
  - discriminate H.
  - change ((opt :: value :: rest) ++ l) with (opt :: value :: (rest ++ l)).
    rewrite parse_options_pair in *.
    flag_cases opt value;
      try (destruct (stoul _) as [v | e |]; simpl in H |- *; try discriminate H);
      try (eapply IH; eassumption);
      inversion H; subst; discriminate Hg.
Qed.

Lemma check_set_size (sign n : Z) (a : usage) (sb : stat) (nm : string) :
  check (set_size sign n a) sb nm =
  check (set_size NOSIZE n a) sb nm &&
  (if sign =? NOSIZE then true
   else if sign =? -1 then st_size sb <? n
   else if sign =? 0 then st_size sb =? n
   else if sign =? 1 then n <? st_size sb
   else true).
Proof.
  unfold check, and_assign. cbn [set_size needs_nlinks nlinks needs_name name
    needs_inum inum size_sign size].
  rewrite Z.eqb_refl, Z.gtb_ltb. cbn [negb].
  destruct (sign =? NOSIZE), (sign =? -1), (sign =? 0), (sign =? 1);
    cbn [negb]; rewrite ?andb_true_r; try reflexivity;
    destruct (needs_nlinks a =? 0), (needs_name a =? 0), (needs_inum a =? 0);
    reflexivity.
Qed.

Lemma check_size_only (sign n : Z) (root : string) (sb : stat) (nm : string) :
  check (set_size sign n (set_path root usage_default)) sb nm =
  if sign =? NOSIZE then true
  else if sign =? -1 then st_size sb <? n
  else if sign =? 0 then st_size sb =? n
  else if sign =? 1 then n <? st_size sb
  else true.
Proof.
  rewrite check_set_size. rewrite check_unconfigured; reflexivity.
Qed.

(** ** The executor *)

Lemma push_back_all (result : list string) (args : list (option string)) :
  fold_left (fun args file => args ++ [Some file]) result args
  = args ++ map Some result.
Proof.
  revert args. induction result as [| file result IH]; intro args; simpl.
  - now rewrite app_nil_r.
  - rewrite IH, <- app_assoc. reflexivity.
Qed.

Lemma build_args_map (result : list string) :
  build_args result = map Some result ++ [None].
Proof. unfold build_args. now rewrite push_back_all. Qed.

(** What [main] does once the arguments are accepted. *)
Lemma main_accepted (w : world) (argv : list string) (a : usage) (g : globals) :
  parse_arguments argv globals_init = Ret (a, g) -> ok g = true ->
  main w argv =
  let out := if Z.of_nat (List.length argv) <=? 1
             then [Cout help] ++ [Cout warning] else [Cout help] in
  let st := find (fuel w) (fs w) a [] in
  if negb (finished st) then (out ++ events st, Unfinished)
  else
    let out := out ++ events st ++ map Cout (result st) in
    if negb (needs_exec a =? 0) then
      match execute w (exec_path a) (result st) with
      | (es, Some t) => (out ++ es, t)
      | (es, None) => (out ++ es, Exit 0)
      end
    else (out, Exit 0).
Proof.
  intros Hp Hok. unfold main. rewrite Hp, Hok. reflexivity.
Qed.

(** C7: the vector given to [execv] in the child (the process in which
    [fork] returned 0) is the matched paths in [result] order followed by the
    null terminator and nothing else: its length is one more than the number
    of matches, element 0 is the first matched path, and for an empty
    [result] it is the terminator alone.  In a run of [main] with an
    executable configured, this is the [execv] call made after the matched
    paths are printed. *)
Theorem execv_vector_is_match_list :
  (forall result,
      build_args result = map Some result ++ [None]
      /\ List.length (build_args result) = S (List.length result)
      /\ nth_error (build_args result) 0
         = Some (match result with first :: _ => Some first | [] => None end))
  /\ build_args [] = [None]
  /\ (forall w filepath result,
         fork_ret w = 0 ->
         exists tail t,
           execute w filepath result
           = (SysFork :: SysExecv filepath (map Some result ++ [None]) :: tail, t))
  /\ (forall w argv a g,
         parse_arguments argv globals_init = Ret (a, g) -> ok g = true ->
         needs_exec a <> 0 ->
         finished (find (fuel w) (fs w) a []) = true ->
         fork_ret w = 0 ->
         exists before tail,
           fst (main w argv)
           = before
               ++ map Cout (result (find (fuel w) (fs w) a []))
               ++ SysFork
               :: SysExecv (exec_path a)
                    (map Some (result (find (fuel w) (fs w) a [])) ++ [None])
               :: tail).
Proof.
  assert (Hexec : forall w filepath result,
             fork_ret w = 0 ->
             exists tail t,
               execute w filepath result
               = (SysFork :: SysExecv filepath (map Some result ++ [None]) :: tail, t)).
  { intros w filepath result Hf. unfold execute. rewrite Hf. cbn [Z.eqb].
    rewrite build_args_map.
    destruct (execv_ret w) as [err |]; [destruct (err =? -1) |]; eauto. }
  split; [| split; [| split]].
  - intro result. rewrite build_args_map. repeat split.
    + rewrite length_app, length_map. simpl. lia.
    + destruct result; reflexivity.
  - reflexivity.
  - exact Hexec.
  - intros w argv a g Hp Hok Hne Hfin Hf.
    rewrite (main_accepted w argv a g Hp Hok). cbv zeta.
    rewrite Hfin. cbn [negb].
    apply Z.eqb_neq in Hne. rewrite Hne. cbn [negb].
    destruct (Hexec w (exec_path a) (result (find (fuel w) (fs w) a [])) Hf)
      as (tail & t & ->).
    set (out := if Z.of_nat (List.length argv) <=? 1
                then [Cout help] ++ [Cout warning] else [Cout help]).
    exists (out ++ events (find (fuel w) (fs w) a [])), tail.
    destruct t; cbn [fst]; rewrite <- !app_assoc; reflexivity.
Qed.

Lemma execv_vector_is_match_list_witness :
  execute Demo.system "/bin/echo" ["root/a.txt"; "root/sub/b.txt"]
  = ([SysFork;
      SysExecv "/bin/echo" [Some "root/a.txt"; Some "root/sub/b.txt"; None]],
     Some (Replaced "/bin/echo" [Some "root/a.txt"; Some "root/sub/b.txt"; None]))
  /\ In (SysExecv "/bin/echo" [Some "root/a.txt"; Some "root/sub/b.txt"; None])
        (fst (main Demo.system ["find"; "root"; "-exec"; "/bin/echo"])).
Proof.
  destruct execv_vector_is_match_list as (_ & _ & Hexec & Hmain).
  split.
  - destruct (Hexec Demo.system "/bin/echo" ["root/a.txt"; "root/sub/b.txt"]
                eq_refl) as (tail & t & H).
    reflexivity.
  - destruct (Hmain Demo.system ["find"; "root"; "-exec"; "/bin/echo"]
                (set_exec 1 "/bin/echo" (set_path "root" usage_default))
                globals_init eq_refl eq_refl) as (before & tail & H).
    + discriminate.
    + reflexivity.
    + reflexivity.
    + rewrite H. rewrite !in_app_iff. right. right. simpl. right. left.
      reflexivity.
Defined.

(** ** Rejected command lines *)


Lemma parse_arguments_tail (prog root : string) (tail : list string) (g : globals) :
  parse_arguments (prog :: root :: tail) g
  = parse_options tail (set_path root usage_default) g.
Proof. reflexivity. Qed.


Lemma main_thrown (w : world) (prog root : string) (tail : list string) (e : exn) :
  parse_arguments (prog :: root :: tail) globals_init = Throw e ->
  main w (prog :: root :: tail) = ([Cout help], Terminate e).
Proof.
  intro H. unfold main. rewrite H.
  replace (Z.of_nat (List.length (prog :: root :: tail)) <=? 1) with false.
  - reflexivity.
  - symmetry. apply Z.leb_gt. cbn [List.length]. lia.
Qed.






(** ** Numeric values *)

Lemma stoul_no_digit (text : string) :
  starts_with_digit (snd (strip_sign (skip_space text))) = false ->
  stoul text = Throw (invalid_argument "stoul").
Proof.
  unfold stoul. destruct (strip_sign (skip_space text)) as [neg body].
  cbn [snd]. now intros ->.
Qed.

Lemma stoul_too_large (text : string) :
  starts_with_digit (snd (strip_sign (skip_space text))) = true ->
  ULONG_MAX < digits_acc (snd (strip_sign (skip_space text))) 0 ->
  stoul text = Throw (out_of_range "stoul").
Proof.
  unfold stoul. destruct (strip_sign (skip_space text)) as [neg body].
  cbn [snd]. intros -> H. apply Z.ltb_lt in H. now rewrite H.
Qed.

Lemma stoul_prefix (text : string) :
  starts_with_digit (snd (strip_sign (skip_space text))) = true ->
  digits_acc (snd (strip_sign (skip_space text))) 0 <= ULONG_MAX ->
  stoul text
  = Ret (if fst (strip_sign (skip_space text))
         then (- digits_acc (snd (strip_sign (skip_space text))) 0) mod 2 ^ 64
         else digits_acc (snd (strip_sign (skip_space text))) 0).
Proof.
  unfold stoul. destruct (strip_sign (skip_space text)) as [neg body].
  cbn [fst snd]. intros -> H. apply Z.ltb_ge in H. now rewrite H.
Qed.

Lemma numeric_pair_throws (flag value text : string) (rest : list string)
  (a : usage) (g : globals) (e : exn) :
  numeric_text flag value = Some text -> stoul text = Throw e ->
  parse_options (flag :: value :: rest) a g = Throw e.
Proof.
  unfold numeric_text. intros Ht Hs. rewrite parse_options_pair.
  destruct (flag =? "-inum")%string eqn:E1.
  - cbn [orb] in Ht. inversion Ht; subst. now rewrite Hs.
  - destruct (flag =? "-nlinks")%string eqn:E2.
    + cbn [orb] in Ht. inversion Ht; subst.
      apply String.eqb_eq in E2. subst flag. cbn [String.eqb Ascii.eqb Bool.eqb].
      now rewrite Hs.
    + cbn [orb] in Ht.
      destruct (flag =? "-size")%string eqn:E3; [| discriminate Ht].
      apply String.eqb_eq in E3. subst flag. cbn [String.eqb Ascii.eqb Bool.eqb].
      destruct (first_char value =? "-")%char;
        [cbn [orb] in Ht; inversion Ht; subst; now rewrite Hs |].
      destruct (first_char value =? "=")%char;
        [cbn [orb] in Ht; inversion Ht; subst; now rewrite Hs |].
      destruct (first_char value =? "+")%char;
        [cbn [orb] in Ht; inversion Ht; subst; now rewrite Hs |].
      discriminate Ht.
Qed.

Lemma digit_is_no_space_or_sign (c : ascii) :
  isdigit c = true ->
  isspace c = false /\ c <> "-"%char /\ c <> "+"%char.
Proof.
  destruct c as [[|] [|] [|] [|] [|] [|] [|] [|]]; vm_compute; intro H;
    try discriminate H; repeat split; discriminate.
Qed.

Lemma skip_space_digit (s : string) :
  starts_with_digit s = true ->
  skip_space s = s /\ strip_sign s = (false, s).
Proof.
  destruct s as [| c s]; [discriminate |]. cbn [starts_with_digit]. intro Hd.
  destruct (digit_is_no_space_or_sign c Hd) as (Hs & Hm & Hp).
  cbn [skip_space]. rewrite Hs. split; [reflexivity |].
  unfold strip_sign.
  destruct c as [[|] [|] [|] [|] [|] [|] [|] [|]]; try reflexivity;
    [now elim Hp | now elim Hm].
Qed.

Lemma digits_acc_app (ds junk : string) :
  all_digits ds = true -> starts_with_digit junk = false ->
  forall acc, digits_acc (ds ++ junk) acc = digits_acc ds acc.
Proof.
  intros Hd Hj. induction ds as [| c ds IH]; intro acc.
  - cbn [append digits_acc]. destruct junk as [| j junk]; [reflexivity |].
    cbn [starts_with_digit] in Hj. cbn [digits_acc]. now rewrite Hj.
  - cbn [all_digits] in Hd. apply andb_prop in Hd. destruct Hd as [Hc Hd].
    cbn [append digits_acc]. rewrite Hc. now apply IH.
Qed.

Lemma stoul_digits_then_junk (ds junk : string) :
  is_number ds = true -> starts_with_digit junk = false ->
  stoul (ds ++ junk) = stoul ds.
Proof.
  unfold is_number. intros Hn Hj. apply andb_prop in Hn.
  destruct Hn as [Hs Hd].
  assert (Hs' : starts_with_digit (ds ++ junk) = true).
  { destruct ds; [discriminate Hs | exact Hs]. }
  unfold stoul.
  destruct (skip_space_digit ds Hs) as [-> ->].
  destruct (skip_space_digit (ds ++ junk) Hs') as [-> ->].
  rewrite Hs, Hs'. now rewrite (digits_acc_app ds junk Hd Hj).
Qed.

Lemma stoul_number (ds : string) :
  is_number ds = true -> digits_acc ds 0 <= ULONG_MAX ->
  stoul ds = Ret (digits_acc ds 0).
Proof.
  unfold is_number. intros Hn Hr. apply andb_prop in Hn. destruct Hn as [Hs _].
  rewrite stoul_prefix; destruct (skip_space_digit ds Hs) as [-> ->];
    cbn [fst snd]; auto.
Qed.

Lemma stoul_digit_prefix (ds junk : string) :
  is_number ds = true -> starts_with_digit junk = false ->
  digits_acc ds 0 <= ULONG_MAX ->
  stoul (ds ++ junk) = Ret (digits_acc ds 0).
Proof.
  intros Hn Hj Hr. rewrite (stoul_digits_then_junk ds junk Hn Hj).
  now apply stoul_number.
Qed.

Lemma digits_acc_nonneg (s : string) :
  forall acc, 0 <= acc -> 0 <= digits_acc s acc.
Proof.
  induction s as [| c s IH]; intros acc Hacc; cbn [digits_acc]; [lia |].
  destruct (isdigit c) eqn:Hc; [| lia].
  apply IH. unfold isdigit in Hc. unfold digit_val.
  apply andb_prop in Hc. destruct Hc as [Hc _]. apply Z.leb_le in Hc. lia.
Qed.

(** C6 (amended): when the pairs before it are accepted and the value given
    to [-inum] or [-nlinks], or the text after the sign of [-size], makes
    [std::stoul] throw, the exception leaves [parse_arguments] and [main]
    uncaught: the run ends in [std::terminate] after the help text, before
    any traversal.  [std::stoul] throws [invalid_argument] exactly when no
    digit follows the optional white space and sign, and [out_of_range] when
    the digits exceed [ULONG_MAX]; otherwise it returns the number of the
    digits, negated modulo 2^64 after a minus sign.  A text that starts with
    digits is accepted as the number of its digit prefix whatever follows the
    digits: the parser stores that number for [-inum], [-nlinks] and, behind
    a sign and converted to [off_t], for [-size], and goes on. *)
Theorem bad_number_terminates_before_traversal :
  (forall w prog root pre flag value rest a g text e,
      parse_options pre (set_path root usage_default) globals_init = Ret (a, g) ->
      ok g = true ->
      numeric_text flag value = Some text ->
      stoul text = Throw e ->
      parse_arguments (prog :: root :: pre ++ flag :: value :: rest) globals_init
      = Throw e
      /\ main w (prog :: root :: pre ++ flag :: value :: rest)
         = ([Cout help], Terminate e))
  /\ (forall text,
         starts_with_digit (snd (strip_sign (skip_space text))) = false ->
         stoul text = Throw (invalid_argument "stoul"))
  /\ (forall text,
         starts_with_digit (snd (strip_sign (skip_space text))) = true ->
         ULONG_MAX < digits_acc (snd (strip_sign (skip_space text))) 0 ->
         stoul text = Throw (out_of_range "stoul"))
  /\ (forall text,
         starts_with_digit (snd (strip_sign (skip_space text))) = true ->
         digits_acc (snd (strip_sign (skip_space text))) 0 <= ULONG_MAX ->
         stoul text
         = Ret (if fst (strip_sign (skip_space text))
                then (- digits_acc (snd (strip_sign (skip_space text))) 0)
                     mod 2 ^ 64
                else digits_acc (snd (strip_sign (skip_space text))) 0)
         /\ exists v, stoul text = Ret v /\ 0 <= v <= ULONG_MAX)
  /\ (forall ds junk,
         is_number ds = true -> starts_with_digit junk = false ->
         digits_acc ds 0 <= ULONG_MAX ->
         stoul (ds ++ junk) = Ret (digits_acc ds 0)
         /\ (forall rest a g,
                parse_options ("-inum" :: (ds ++ junk)%string :: rest) a g
                = parse_options rest (set_inum 1 (digits_acc ds 0) a) g)
         /\ (forall rest a g,
                parse_options ("-nlinks" :: (ds ++ junk)%string :: rest) a g
                = parse_options rest (set_nlinks 1 (digits_acc ds 0) a) g)
         /\ (forall rest a g,
                parse_options ("-size" :: String "-" (ds ++ junk) :: rest) a g
                = parse_options rest
                    (set_size (-1) (to_off_t (digits_acc ds 0)) a) g
                /\ parse_options ("-size" :: String "=" (ds ++ junk) :: rest) a g
                   = parse_options rest
                       (set_size 0 (to_off_t (digits_acc ds 0)) a) g
                /\ parse_options ("-size" :: String "+" (ds ++ junk) :: rest) a g
                   = parse_options rest
                       (set_size 1 (to_off_t (digits_acc ds 0)) a) g)
         /\ (forall prog root,
                parse_arguments [prog; root; "-inum"; (ds ++ junk)%string]
                  globals_init
                = Ret (set_inum 1 (digits_acc ds 0) (set_path root usage_default),
                       globals_init))).
Proof.
  split; [| split; [| split; [| split]]].
  - intros w prog root pre flag value rest a g text e Hpre Hok Ht Hs.
    assert (Hp : parse_arguments (prog :: root :: pre ++ flag :: value :: rest)
                   globals_init = Throw e).
    { rewrite parse_arguments_tail.
      destruct (parse_options_app pre _ globals_init _ _
                  (flag :: value :: rest) eq_refl Hpre Hok) as [_ ->].
      now apply numeric_pair_throws with (text := text). }
    split; [exact Hp | now apply main_thrown].
  - exact stoul_no_digit.
  - exact stoul_too_large.
  - intros text Hd Hr. rewrite (stoul_prefix text Hd Hr).
    split; [reflexivity |].
    eexists. split; [reflexivity |].
    pose proof (digits_acc_nonneg (snd (strip_sign (skip_space text))) 0
                  (Z.le_refl 0)) as Hnn.
    unfold ULONG_MAX in *.
    destruct (fst (strip_sign (skip_space text))).
    + pose proof (Z.mod_pos_bound
                    (- digits_acc (snd (strip_sign (skip_space text))) 0)
                    (2 ^ 64) ltac:(lia)).
      lia.
    + lia.
  - intros ds junk Hn Hj Hr.
    pose proof (stoul_digit_prefix ds junk Hn Hj Hr) as Hs.
    split; [exact Hs |].
    repeat split; intros;
      rewrite ?parse_arguments_tail, parse_options_pair;
      cbn [String.eqb Ascii.eqb Bool.eqb first_char substr1];
      rewrite Hs; reflexivity.
Qed.

Lemma bad_number_terminates_before_traversal_witness :
  main Demo.system ["find"; "root"; "-name"; "a.txt"; "-inum"; "abc"]
  = ([Cout help], Terminate (invalid_argument "stoul"))
  /\ stoul "x1" = Throw (invalid_argument "stoul")
  /\ stoul "99999999999999999999" = Throw (out_of_range "stoul")
  /\ stoul " -12abc" = Ret (2 ^ 64 - 12)
  /\ stoul "12abc" = Ret 12
  /\ parse_arguments ["find"; "root"; "-inum"; "12abc"] globals_init
     = Ret (set_inum 1 12 (set_path "root" usage_default), globals_init).
Proof.
  destruct bad_number_terminates_before_traversal
    as (Hmain & Hinv & Hbig & Hok & Hpre).
  split; [| split; [| split; [| split; [| split]]]].
  - apply (Hmain Demo.system "find" "root" ["-name"; "a.txt"] "-inum" "abc" []
             (set_name 1 "a.txt" (set_path "root" usage_default)) globals_init
             "abc" (invalid_argument "stoul")); reflexivity.
  - apply Hinv. reflexivity.
  - apply Hbig; reflexivity.
  - destruct (Hok " -12abc") as [H _]; [reflexivity | discriminate | exact H].
  - destruct (Hpre "12" "abc") as [H _];
      [reflexivity | reflexivity | discriminate | exact H].
  - destruct (Hpre "12" "abc") as (_ & _ & _ & _ & H);
      [reflexivity | reflexivity | discriminate | apply H].
Defined.

(** C6 as stated fails: [12abc] is not a number, yet [-inum 12abc] is
    accepted as inode 12 and the tree is walked to the normal end. *)
Lemma bad_number_accepted_counterexample :
  is_number "12abc" = false
  /\ parse_arguments ["find"; "root"; "-inum"; "12abc"] globals_init
     = Ret (set_inum 1 12 (set_path "root" usage_default), globals_init)
  /\ existsb is_opendir
       (fst (main Demo.system ["find"; "root"; "-inum"; "12abc"])) = true
  /\ snd (main Demo.system ["find"; "root"; "-inum"; "12abc"]) = Exit 0.
Proof. repeat split. Qed.

(** ** The size filter from the command line *)

(** C2 (amended): a size filter given as [-size] followed by a sign and a
    decimal number [N] below 2^63 uses one of three strict operators on [N]
    itself.  The parser stores [N] with sign -1, 0 or 1 for [-], [=], [+],
    and [check] then demands a size below [N], equal to [N], above [N], in
    conjunction with the other filters; alone the filter matches exactly
    those entries.  The parser produces no other operator: any other first
    character is refused, and every configuration it returns has a sign among
    [NOSIZE], -1, 0, 1.  A number from 2^63 to 2^64 - 1 is stored as the
    number minus 2^64, and the comparison is made with that stored value. *)
Theorem size_filter_is_strict :
  (forall a n sb nm,
      check (set_size (-1) n a) sb nm
      = check (set_size NOSIZE n a) sb nm && (st_size sb <? n)
      /\ check (set_size 0 n a) sb nm
         = check (set_size NOSIZE n a) sb nm && (st_size sb =? n)
      /\ check (set_size 1 n a) sb nm
         = check (set_size NOSIZE n a) sb nm && (n <? st_size sb))
  /\ (forall root n sb nm,
         (check (set_size (-1) n (set_path root usage_default)) sb nm = true
          <-> st_size sb < n)
         /\ (check (set_size 0 n (set_path root usage_default)) sb nm = true
             <-> st_size sb = n)
         /\ (check (set_size 1 n (set_path root usage_default)) sb nm = true
             <-> n < st_size sb))
  /\ (forall value rest a g v,
         stoul (substr1 value) = Ret v ->
         (first_char value = "-"%char ->
          parse_options ("-size" :: value :: rest) a g
          = parse_options rest (set_size (-1) (to_off_t v) a) g)
         /\ (first_char value = "="%char ->
             parse_options ("-size" :: value :: rest) a g
             = parse_options rest (set_size 0 (to_off_t v) a) g)
         /\ (first_char value = "+"%char ->
             parse_options ("-size" :: value :: rest) a g
             = parse_options rest (set_size 1 (to_off_t v) a) g))
  /\ (forall value rest a g,
         first_char value <> "-"%char -> first_char value <> "="%char ->
         first_char value <> "+"%char ->
         parse_options ("-size" :: value :: rest) a g
         = Ret (a, {| ok := false; reason := reason_size |}))
  /\ (forall argv a g,
         parse_arguments argv globals_init = Ret (a, g) -> size_sign_ok a)
  /\ (forall ds,
         is_number ds = true -> digits_acc ds 0 < 2 ^ 63 ->
         (forall rest a g,
             parse_options ("-size" :: String "-" ds :: rest) a g
             = parse_options rest (set_size (-1) (digits_acc ds 0) a) g
             /\ parse_options ("-size" :: String "=" ds :: rest) a g
                = parse_options rest (set_size 0 (digits_acc ds 0) a) g
             /\ parse_options ("-size" :: String "+" ds :: rest) a g
                = parse_options rest (set_size 1 (digits_acc ds 0) a) g)
         /\ (forall prog root sb nm,
                (exists a,
                    parse_arguments [prog; root; "-size"; String "-" ds]
                      globals_init = Ret (a, globals_init)
                    /\ size a = digits_acc ds 0
                    /\ (check a sb nm = true <-> st_size sb < digits_acc ds 0))
                /\ (exists a,
                       parse_arguments [prog; root; "-size"; String "=" ds]
                         globals_init = Ret (a, globals_init)
                       /\ size a = digits_acc ds 0
                       /\ (check a sb nm = true
                           <-> st_size sb = digits_acc ds 0))
                /\ (exists a,
                       parse_arguments [prog; root; "-size"; String "+" ds]
                         globals_init = Ret (a, globals_init)
                       /\ size a = digits_acc ds 0
                       /\ (check a sb nm = true
                           <-> digits_acc ds 0 < st_size sb))))
  /\ (forall ds,
         is_number ds = true -> 2 ^ 63 <= digits_acc ds 0 <= ULONG_MAX ->
         forall rest a g,
           parse_options ("-size" :: String "-" ds :: rest) a g
           = parse_options rest (set_size (-1) (digits_acc ds 0 - 2 ^ 64) a) g
           /\ parse_options ("-size" :: String "=" ds :: rest) a g
              = parse_options rest (set_size 0 (digits_acc ds 0 - 2 ^ 64) a) g
           /\ parse_options ("-size" :: String "+" ds :: rest) a g
              = parse_options rest (set_size 1 (digits_acc ds 0 - 2 ^ 64) a) g).
Proof.
  assert (Honly : forall root n sb nm,
             (check (set_size (-1) n (set_path root usage_default)) sb nm = true
              <-> st_size sb < n)
             /\ (check (set_size 0 n (set_path root usage_default)) sb nm = true
                 <-> st_size sb = n)
             /\ (check (set_size 1 n (set_path root usage_default)) sb nm = true
                 <-> n < st_size sb)).
  { intros root n sb nm. rewrite !check_size_only.
    change (-1 =? NOSIZE) with false. change (0 =? NOSIZE) with false.
    change (1 =? NOSIZE) with false. cbn [Z.eqb Pos.eqb].
    rewrite Z.ltb_lt, Z.eqb_eq, Z.ltb_lt. tauto. }
  assert (Hstore : forall ds t,
             is_number ds = true -> digits_acc ds 0 <= ULONG_MAX ->
             to_off_t (digits_acc ds 0) = t ->
             forall rest a g,
               parse_options ("-size" :: String "-" ds :: rest) a g
               = parse_options rest (set_size (-1) t a) g
               /\ parse_options ("-size" :: String "=" ds :: rest) a g
                  = parse_options rest (set_size 0 t a) g
               /\ parse_options ("-size" :: String "+" ds :: rest) a g
                  = parse_options rest (set_size 1 t a) g).
  { intros ds t Hn Hr Ht rest a g.
    rewrite !parse_options_pair.
    cbn [String.eqb Ascii.eqb Bool.eqb first_char substr1].
    rewrite (stoul_number ds Hn Hr). cbn [bind]. rewrite Ht. auto. }
  split; [| split; [exact Honly | split; [| split; [| split; [| split]]]]].
  - intros a n sb nm.
    rewrite (check_set_size (-1)), (check_set_size 0), (check_set_size 1). auto.
  - intros value rest a g v Hv. rewrite parse_options_pair, Hv.
    repeat split; intros ->; reflexivity.
  - intros value rest a g H1 H2 H3. rewrite parse_options_pair.
    apply Ascii.eqb_neq in H1, H2, H3. rewrite H1, H2, H3. reflexivity.
  - intros argv a g H. unfold parse_arguments in H.
    destruct (nth_error argv 1) as [root |]; [| discriminate H].
    eapply parse_options_size_sign; [| exact H].
    left. reflexivity.
  - intros ds Hn Hlt.
    assert (Hr : digits_acc ds 0 <= ULONG_MAX) by (unfold ULONG_MAX; lia).
    assert (Ht : to_off_t (digits_acc ds 0) = digits_acc ds 0).
    { unfold to_off_t. apply Z.ltb_lt in Hlt. now rewrite Hlt. }
    pose proof (Hstore ds _ Hn Hr Ht) as Hp.
    split; [exact Hp |].
    intros prog root sb nm.
    destruct (Honly root (digits_acc ds 0) sb nm) as (Hl & He & Hg).
    destruct (Hp [] (set_path root usage_default) globals_init)
      as (Pl & Pe & Pg).
    split; [| split]; eexists;
      (split; [rewrite parse_arguments_tail;
               first [rewrite Pl | rewrite Pe | rewrite Pg]; reflexivity |]);
      (split; [reflexivity | assumption]).
  - intros ds Hn [Hge Hr]. apply (Hstore ds _ Hn Hr).
    unfold to_off_t. apply Z.ltb_ge in Hge. now rewrite Hge.
Qed.

Lemma size_filter_is_strict_witness :
  (check (set_size 1 100 (set_path "root" usage_default))
         (Demo.regular 14 150) "b.txt" = true)
  /\ parse_options ["-size"; "=100"] usage_default globals_init
     = Ret (set_size 0 100 usage_default, globals_init)
  /\ parse_options ["-size"; "100"] usage_default globals_init
     = Ret (usage_default, {| ok := false; reason := reason_size |})
  /\ size_sign_ok (set_size (-1) 100 (set_path "root" usage_default))
  /\ parse_options ["-size"; "+100"] usage_default globals_init
     = Ret (set_size 1 100 usage_default, globals_init)
  /\ parse_options ["-size"; "+9223372036854775808"] usage_default globals_init
     = Ret (set_size 1 (- 2 ^ 63) usage_default, globals_init).
Proof.
  destruct size_filter_is_strict
    as (_ & Honly & Hsign & Hbad & Hinv & Hsmall & Hhuge).
  split; [| split; [| split; [| split; [| split]]]].
  - apply (Honly "root" 100 (Demo.regular 14 150) "b.txt"). reflexivity.
  - destruct (Hsign "=100" [] usage_default globals_init 100 eq_refl)
      as (_ & Heq & _).
    rewrite (Heq eq_refl). reflexivity.
  - apply Hbad; discriminate.
  - apply (Hinv ["find"; "root"; "-size"; "-100"] _ globals_init). reflexivity.
  - destruct (Hsmall "100" eq_refl eq_refl) as [Hp _].
    destruct (Hp [] usage_default globals_init) as (_ & _ & Hg).
    etransitivity; [exact Hg | reflexivity].
  - assert (Hr : 2 ^ 63 <= digits_acc "9223372036854775808" 0 <= ULONG_MAX)
      by (split; vm_compute; discriminate).
    destruct (Hhuge "9223372036854775808" eq_refl Hr [] usage_default
                globals_init) as (_ & _ & Hg).
    etransitivity; [exact Hg | reflexivity].
Defined.

(** C2 as stated fails: the threshold typed in [-size +9223372036854775808]
    is 2^63, the configuration stores -2^63, and a file of 50 bytes is
    accepted although 50 is not above 2^63. *)
Lemma size_threshold_wraps_counterexample :
  is_number "9223372036854775808" = true
  /\ digits_acc "9223372036854775808" 0 = 2 ^ 63
  /\ parse_arguments ["find"; "root"; "-size"; "+9223372036854775808"]
       globals_init
     = Ret (set_size 1 (- 2 ^ 63) (set_path "root" usage_default), globals_init)
  /\ st_size (Demo.regular 11 50) = 50
  /\ check (set_size 1 (- 2 ^ 63) (set_path "root" usage_default))
           (Demo.regular 11 50) "a.txt" = true
  /\ ~ (2 ^ 63 < st_size (Demo.regular 11 50)).
Proof.
  repeat split. intro H. discriminate H.
Qed.

(** ** Negative values for [-inum] and [-nlinks] *)

Lemma stoul_minus_digits (ds : string) :
  is_number ds = true -> digits_acc ds 0 <= ULONG_MAX ->
  stoul (String "-" ds) = Ret ((- digits_acc ds 0) mod 2 ^ 64).
Proof.
  unfold is_number. intros Hn Hr. apply andb_prop in Hn. destruct Hn as [Hd _].
  rewrite stoul_prefix; cbn [skip_space strip_sign fst snd];
    change (isspace "-") with false; cbn [fst snd]; auto.
Qed.

(** C10 (amended): a value made of [-] and digits whose number is at most
    2^64 - 1 is not refused by [-inum] or [-nlinks]: [std::stoul] returns the
    negation of the number modulo 2^64, and that is what the filter is set
    to, with its flag raised, wherever the pair stands among accepted pairs.
    So [-inum -5] asks for inode 2^64 - 5. *)
Theorem negative_value_wraps :
  forall ds,
    is_number ds = true -> digits_acc ds 0 <= ULONG_MAX ->
    let v := (- digits_acc ds 0) mod 2 ^ 64 in
    stoul (String "-" ds) = Ret v
    /\ 0 <= v < 2 ^ 64
    /\ (forall rest a g,
           parse_options ("-inum" :: String "-" ds :: rest) a g
           = parse_options rest (set_inum 1 v a) g)
    /\ (forall rest a g,
           parse_options ("-nlinks" :: String "-" ds :: rest) a g
           = parse_options rest (set_nlinks 1 v a) g)
    /\ (forall prog root,
           parse_arguments [prog; root; "-inum"; String "-" ds] globals_init
           = Ret (set_inum 1 v (set_path root usage_default), globals_init))
    /\ (forall prog root,
           parse_arguments [prog; root; "-nlinks"; String "-" ds] globals_init
           = Ret (set_nlinks 1 v (set_path root usage_default), globals_init)).
Proof.
  intros ds Hn Hr v.
  pose proof (stoul_minus_digits ds Hn Hr) as Hs. fold v in Hs.
  split; [exact Hs |].
  split; [apply Z.mod_pos_bound; lia |].
  repeat split; intros; rewrite ?parse_arguments_tail, parse_options_pair;
    cbn [String.eqb Ascii.eqb Bool.eqb]; rewrite Hs; reflexivity.
Qed.

Lemma negative_value_wraps_witness :
  stoul "-5" = Ret (2 ^ 64 - 5)
  /\ parse_arguments ["find"; "root"; "-inum"; "-5"] globals_init
     = Ret (set_inum 1 (2 ^ 64 - 5) (set_path "root" usage_default), globals_init)
  /\ parse_arguments ["find"; "root"; "-nlinks"; "-5"] globals_init
     = Ret (set_nlinks 1 18446744073709551611 (set_path "root" usage_default),
            globals_init).
Proof.
  destruct (negative_value_wraps "5" eq_refl) as (Hs & _ & _ & _ & Hi & Hl).
  - discriminate.
  - split; [exact Hs | split; [apply Hi | apply Hl]].
Defined.

(** C10 as stated fails: twenty digits denoting 2^64 after the [-] make
    [std::stoul] throw [out_of_range], and the run ends there. *)
Lemma negative_value_out_of_range_counterexample :
  is_number "18446744073709551616" = true
  /\ stoul "-18446744073709551616" = Throw (out_of_range "stoul")
  /\ parse_arguments ["find"; "root"; "-inum"; "-18446744073709551616"]
       globals_init = Throw (out_of_range "stoul")
  /\ main Demo.system ["find"; "root"; "-inum"; "-18446744073709551616"]
     = ([Cout help], Terminate (out_of_range "stoul")).
Proof. repeat split. Qed.

(** ** Missing arguments *)

(** A flag left without a value after accepted pairs: the loop condition
    admits its index, and its value is read from the null pointer. *)
Lemma trailing_flag_after_pairs (pre : list string) (flag : string)
  (a0 a : usage) (g : globals) :
  parse_options pre a0 globals_init = Ret (a, g) -> ok g = true ->
  parse_options (pre ++ [flag]) a0 globals_init = Undef.
Proof.
  intros Hpre Hok.
  destruct (parse_options_app pre a0 globals_init a g [flag] eq_refl Hpre Hok)
    as [_ ->].
  reflexivity.
Qed.

(** C8 (the code at the failing input): with a trailing flag the loop body
    runs for it, since its index [argc - 1] is below [argc], and builds
    [value] from [argv[argc]], the null pointer, before the flag is even
    looked at.  Whatever the flag is and whatever accepted pairs precede it,
    the behaviour is undefined and [main] gets no configuration back. *)
Theorem trailing_flag_reads_null_terminator :
  (forall flag a g, parse_options [flag] a g = Undef)
  /\ (forall prog root pre flag a g,
         parse_options pre (set_path root usage_default) globals_init
         = Ret (a, g) ->
         ok g = true ->
         parse_arguments (prog :: root :: pre ++ [flag]) globals_init = Undef)
  /\ (forall w prog root flag,
         main w [prog; root; flag] = ([Cout help], UndefinedBehaviour))
  /\ parse_arguments ["find"; "root"; "-inum"] globals_init = Undef.
Proof.
  repeat split.
  intros prog root pre flag a g Hpre Hok.
  rewrite parse_arguments_tail.
  now apply trailing_flag_after_pairs with (a := a) (g := g).
Qed.

Lemma trailing_flag_reads_null_terminator_witness :
  parse_arguments ["find"; "root"; "-name"; "a.txt"; "-size"] globals_init
  = Undef.
Proof.
  destruct trailing_flag_reads_null_terminator as (_ & Hpre & _).
  apply (Hpre "find" "root" ["-name"; "a.txt"] "-size"
           (set_name 1 "a.txt" (set_path "root" usage_default)) globals_init);
    reflexivity.
Defined.

(** C9 (the code at the failing input): started with the program name
    alone, [main] prints the help text and then the warning and does not exit
    there: it calls [parse_arguments], whose first statement reads [argv[1]].
    That is the null pointer ending [argv], so the call has no defined
    result: the run does not get as far as the traversal, and it never exits
    with a status of the program's own choosing. *)
Theorem no_arguments_warns_then_parses :
  forall w prog,
    fst (main w [prog]) = [Cout help; Cout warning]
    /\ parse_arguments [prog] globals_init = Undef
    /\ snd (main w [prog]) = UndefinedBehaviour
    /\ existsb is_opendir (fst (main w [prog])) = false.
Proof. intros w prog. repeat split. Qed.

(** ** The walk: events *)

Lemma visit_events_grow (fs : filesystem) (a : usage) (d rel : string)
  (st : walk_state) :
  exists es, events (visit fs a d rel st) = events st ++ es.
Proof.
  unfold visit.
  destruct ((rel =? ".") || (rel =? ".."))%string.
  - exists []. now rewrite app_nil_r.
  - destruct (lstat fs (child_path d rel)) as [sb |].
    + destruct (S_ISDIR (st_mode sb)); [| destruct (check a sb rel)];
        cbn [events emit queue_push result_push_back]; eauto.
    + cbn [events emit]. rewrite <- app_assoc. eauto.
Qed.

Lemma scan_events_grow (fs : filesystem) (a : usage) (d : string)
  (entries : list string) :
  forall st, exists es, events (scan fs a d entries st) = events st ++ es.
Proof.
  induction entries as [| rel rest IH]; intro st; cbn [scan].
  - exists []. now rewrite app_nil_r.
  - destruct (IH (visit fs a d rel st)) as [es ->].
    destruct (visit_events_grow fs a d rel st) as [es' ->].
    rewrite <- app_assoc. eauto.
Qed.

Lemma expand_events (fs : filesystem) (a : usage) (d : string)
  (q : list string) (st : walk_state) :
  exists es, events (expand fs a d q st) = events st ++ SysOpendir d :: es.
Proof.
  unfold expand. destruct (opendir fs d) as [entries |].
  - destruct (scan_events_grow fs a d entries
                (emit [SysOpendir d]
                   {| queue := q; result := result st; events := events st |}))
      as [es He].
    cbn [events emit] in *. rewrite He, <- !app_assoc. cbn [app]. eauto.
  - cbn [events emit]. rewrite <- !app_assoc. cbn [app]. eauto.
Qed.

Lemma walk_events_grow (n : nat) (fs : filesystem) (a : usage) :
  forall st, exists es, events (walk n fs a st) = events st ++ es.
Proof.
  induction n as [| n IH]; intro st; cbn [walk].
  - exists []. now rewrite app_nil_r.
  - destruct (queue st) as [| d q].
    + exists []. now rewrite app_nil_r.
    + destruct (IH (expand fs a d q st)) as [es ->].
      destruct (expand_events fs a d q st) as [es' ->].
      rewrite <- app_assoc. eauto.
Qed.

(** Following [find] for at least one pass shows the root being opened. *)
Lemma find_opens_root (n : nat) (fs : filesystem) (a : usage) (r0 : list string) :
  exists es, events (find (S n) fs a r0) = SysOpendir (path a) :: es.
Proof.
  unfold find, walk_init. cbn [walk queue].
  destruct (walk_events_grow n fs a
              (expand fs a (path a) []
                 {| queue := [path a]; result := r0; events := [] |}))
    as [es ->].
  destruct (expand_events fs a (path a) []
              {| queue := [path a]; result := r0; events := [] |}) as [es' ->].
  cbn [events app]. eauto.
Qed.

Lemma traversal_is_visible (w : world) (argv : list string) (a : usage)
  (g : globals) :
  parse_arguments argv globals_init = Ret (a, g) -> ok g = true ->
  (0 < fuel w)%nat ->
  existsb is_opendir (fst (main w argv)) = true.
Proof.
  intros Hp Hok Hfuel. rewrite (main_accepted w argv a g Hp Hok). cbv zeta.
  destruct (fuel w) as [| n]; [lia |].
  destruct (find_opens_root n (fs w) a []) as [es He].
  assert (Hev : existsb is_opendir (events (find (S n) (fs w) a [])) = true)
    by now rewrite He.
  destruct (negb (finished (find (S n) (fs w) a []))).
  - cbn [fst]. rewrite existsb_app, Hev. apply orb_true_r.
  - assert (Hout : forall out rest0,
               existsb is_opendir
                 (out ++ events (find (S n) (fs w) a []) ++ rest0) = true).
    { intros out rest0. rewrite !existsb_app, Hev.
      cbn [orb]. apply orb_true_r. }
    destruct (negb (needs_exec a =? 0)).
    + destruct (execute w (exec_path a) (result (find (S n) (fs w) a [])))
        as [es0 [t |]]; cbn [fst]; rewrite <- !app_assoc; apply Hout.
    + cbn [fst]. apply Hout.
Qed.

(** The run with the program name alone opens no directory, whereas a run
    that reaches the traversal opens its root. *)
Lemma no_arguments_no_traversal :
  existsb is_opendir (fst (main Demo.system ["find"])) = false
  /\ existsb is_opendir (fst (main Demo.system ["find"; "root"])) = true
  /\ main Demo.system ["find"] = ([Cout help; Cout warning], UndefinedBehaviour).
Proof. repeat split. Qed.

(** ** The walk: queue and result *)

Lemma visit_queue_result (fs : filesystem) (a : usage) (d rel : string)
  (st : walk_state) :
  queue (visit fs a d rel st) = queue st ++ listed_dirs fs d [rel]
  /\ result (visit fs a d rel st) = result st ++ listed_hits fs a d [rel].
Proof.
  unfold visit. cbn [listed_dirs listed_hits].
  change ((rel =? ".") || (rel =? ".."))%string with (dot_entry rel).
  destruct (dot_entry rel).
  - now rewrite !app_nil_r.
  - destruct (lstat fs (child_path d rel)) as [sb |].
    + destruct (S_ISDIR (st_mode sb)); [| destruct (check a sb rel)];
        cbn [queue result emit queue_push result_push_back];
        now rewrite ?app_nil_r.
    + cbn [queue result emit]. now rewrite !app_nil_r.
Qed.

Lemma listed_dirs_cons (fs : filesystem) (d rel : string) (rest : list string) :
  listed_dirs fs d (rel :: rest) = listed_dirs fs d [rel] ++ listed_dirs fs d rest.
Proof.
  cbn [listed_dirs]. destruct (dot_entry rel); [reflexivity |].
  destruct (lstat fs (child_path d rel)) as [sb |]; [| reflexivity].
  destruct (S_ISDIR (st_mode sb)); reflexivity.
Qed.

Lemma listed_hits_cons (fs : filesystem) (a : usage) (d rel : string)
  (rest : list string) :
  listed_hits fs a d (rel :: rest)
  = listed_hits fs a d [rel] ++ listed_hits fs a d rest.
Proof.
  cbn [listed_hits]. destruct (dot_entry rel); [reflexivity |].
  destruct (lstat fs (child_path d rel)) as [sb |]; [| reflexivity].
  destruct (S_ISDIR (st_mode sb)); [reflexivity |].
  destruct (check a sb rel); reflexivity.
Qed.

Lemma scan_queue_result (fs : filesystem) (a : usage) (d : string)
  (entries : list string) :
  forall st,
    queue (scan fs a d entries st) = queue st ++ listed_dirs fs d entries
    /\ result (scan fs a d entries st) = result st ++ listed_hits fs a d entries.
Proof.
  induction entries as [| rel rest IH]; intro st.
  - cbn [scan listed_dirs listed_hits]. now rewrite !app_nil_r.
  - cbn [scan]. destruct (IH (visit fs a d rel st)) as [-> ->].
    destruct (visit_queue_result fs a d rel st) as [-> ->].
    rewrite (listed_dirs_cons fs d rel rest), (listed_hits_cons fs a d rel rest).
    now rewrite !app_assoc.
Qed.

Lemma expand_queue_result (fs : filesystem) (a : usage) (d : string)
  (q : list string) (st : walk_state) :
  match opendir fs d with
  | Some entries =>
    queue (expand fs a d q st) = q ++ listed_dirs fs d entries
    /\ result (expand fs a d q st) = result st ++ listed_hits fs a d entries
  | None =>
    queue (expand fs a d q st) = q /\ result (expand fs a d q st) = result st
  end.
Proof.
  unfold expand. destruct (opendir fs d) as [entries |].
  - cbn [queue result emit].
    destruct (scan_queue_result fs a d entries
                (emit [SysOpendir d]
                   {| queue := q; result := result st; events := events st |}))
      as [-> ->].
    auto.
  - auto.
Qed.

Lemma listed_hits_matched (fs : filesystem) (a : usage) (d : string)
  (entries : list string) :
  Forall (matched_entry fs a) (listed_hits fs a d entries).
Proof.
  induction entries as [| rel rest IH]; cbn [listed_hits]; [constructor |].
  destruct (dot_entry rel); [exact IH |].
  destruct (lstat fs (child_path d rel)) as [sb |] eqn:Hl; [| exact IH].
  destruct (S_ISDIR (st_mode sb)) eqn:Hd; [exact IH |].
  destruct (check a sb rel) eqn:Hc; [| exact IH].
  constructor; [| exact IH].
  exists d, rel, sb. auto.
Qed.

Lemma listed_dirs_queued (fs : filesystem) (a : usage) (d : string)
  (entries : list string) :
  Forall (queued_entry fs a) (listed_dirs fs d entries).
Proof.
  induction entries as [| rel rest IH]; cbn [listed_dirs]; [constructor |].
  destruct (dot_entry rel); [exact IH |].
  destruct (lstat fs (child_path d rel)) as [sb |] eqn:Hl; [| exact IH].
  destruct (S_ISDIR (st_mode sb)) eqn:Hd; [| exact IH].
  constructor; [| exact IH].
  right. exists sb. auto.
Qed.

Lemma In_listed_dirs (fs : filesystem) (d rel : string) (sb : stat)
  (entries : list string) :
  In rel entries -> dot_entry rel = false ->
  lstat fs (child_path d rel) = Some sb -> S_ISDIR (st_mode sb) = true ->
  In (child_path d rel) (listed_dirs fs d entries).
Proof.
  intros Hin Hdot Hl Hd.
  induction entries as [| x rest IH]; [contradiction |].
  rewrite (listed_dirs_cons fs d x rest). apply in_or_app.
  destruct Hin as [-> | Hin].
  - left. cbn [listed_dirs]. rewrite Hdot, Hl, Hd. now left.
  - right. auto.
Qed.

Lemma In_listed_hits (fs : filesystem) (a : usage) (d rel : string) (sb : stat)
  (entries : list string) :
  In rel entries -> dot_entry rel = false ->
  lstat fs (child_path d rel) = Some sb -> S_ISDIR (st_mode sb) = false ->
  check a sb rel = true ->
  In (child_path d rel) (listed_hits fs a d entries).
Proof.
  intros Hin Hdot Hl Hd Hc.
  induction entries as [| x rest IH]; [contradiction |].
  rewrite (listed_hits_cons fs a d x rest). apply in_or_app.
  destruct Hin as [-> | Hin].
  - left. cbn [listed_hits]. rewrite Hdot, Hl, Hd, Hc. now left.
  - right. auto.
Qed.

Lemma walk_step (n : nat) (fs : filesystem) (a : usage) (st : walk_state)
  (d : string) (q : list string) :
  queue st = d :: q ->
  walk (S n) fs a st = walk n fs a (expand fs a d q st).
Proof. intro H. cbn [walk]. now rewrite H. Qed.

(** Entries are only ever appended to [result]. *)
Lemma walk_result_grows (n : nat) (fs : filesystem) (a : usage) :
  forall st, exists more,
      result (walk n fs a st) = result st ++ more
      /\ Forall (matched_entry fs a) more.
Proof.
  induction n as [| n IH]; intro st.
  - exists []. cbn [walk]. now rewrite app_nil_r.
  - destruct (queue st) as [| d q] eqn:Hq.
    + exists []. cbn [walk]. rewrite Hq. now rewrite app_nil_r.
    + rewrite (walk_step n fs a st d q Hq).
      destruct (IH (expand fs a d q st)) as (more & -> & Hm).
      pose proof (expand_queue_result fs a d q st) as He.
      destruct (opendir fs d) as [entries |]; destruct He as [_ ->].
      * exists (listed_hits fs a d entries ++ more).
        rewrite app_assoc. split; [reflexivity |].
        apply Forall_app. split; [apply listed_hits_matched | exact Hm].
      * eauto.
Qed.

Lemma walk_queue_invariant (n : nat) (fs : filesystem) (a : usage) :
  forall st,
    Forall (queued_entry fs a) (queue st) ->
    Forall (queued_entry fs a) (queue (walk n fs a st)).
Proof.
  induction n as [| n IH]; intros st Hst; [exact Hst |].
  destruct (queue st) as [| d q] eqn:Hq.
  - cbn [walk]. rewrite Hq. rewrite Hq. constructor.
  - rewrite (walk_step n fs a st d q Hq). apply IH.
    pose proof (expand_queue_result fs a d q st) as He.
    inversion Hst as [| ? ? _ Hqq]; subst.
    destruct (opendir fs d) as [entries |]; destruct He as [-> _].
    + apply Forall_app. split; [exact Hqq | apply listed_dirs_queued].
    + exact Hqq.
Qed.

(** C3: whatever the tree, the filters and the number of passes followed,
    every path in [result] is a child for which [lstat], which does not
    follow links, reported something other than a directory, and which
    [check] accepted under its base name; the paths on the queue are the root
    and children that [lstat] reported as directories.  So no directory is
    ever appended to the match list, and [check] sees no directory. *)
Theorem match_list_has_no_directory :
  forall fuel fs a,
    Forall (fun p => exists sb,
                lstat fs p = Some sb /\ S_ISDIR (st_mode sb) = false)
           (result (find fuel fs a []))
    /\ Forall (matched_entry fs a) (result (find fuel fs a []))
    /\ Forall (queued_entry fs a) (queue (find fuel fs a [])).
Proof.
  intros fuel0 fs0 a.
  assert (Hm : Forall (matched_entry fs0 a) (result (find fuel0 fs0 a []))).
  { unfold find.
    destruct (walk_result_grows fuel0 fs0 a (walk_init a [])) as (more & -> & Hm).
    exact Hm. }
  split; [| split].
  - eapply Forall_impl; [| exact Hm].
    intros p (d & rel & sb & _ & Hl & Hd & _). eauto.
  - exact Hm.
  - unfold find. apply walk_queue_invariant.
    constructor; [now left | constructor].
Qed.

(** ** The walk: failures are skipped *)

(** Once the queue has drained, every accepted entry of every directory that
    was opened on the way down from a queued directory is in [result]. *)
Lemma walk_complete (n : nat) (fs : filesystem) (a : usage) :
  forall st,
    queue (walk n fs a st) = [] ->
    forall d0 d entries,
      In d0 (queue st) -> Reach fs d0 d -> opendir fs d = Some entries ->
      incl (listed_hits fs a d entries) (result (walk n fs a st)).
Proof.
  induction n as [| n IH]; intros st Hend d0 d entries Hin HR Ho.
  - cbn [walk] in Hend. rewrite Hend in Hin. contradiction.
  - destruct (queue st) as [| c q] eqn:Hq; [contradiction |].
    rewrite (walk_step n fs a st c q Hq) in *.
    pose proof (expand_queue_result fs a c q st) as He.
    destruct Hin as [<- | Hin].
    + inversion HR as [? | ? entries0 rel sb ? Ho0 Hrel Hdot Hl Hd HR']; subst.
      * rewrite Ho in He. destruct He as [_ Hres].
        destruct (walk_result_grows n fs a (expand fs a d q st))
          as (more & -> & _).
        rewrite Hres. intros p Hp. apply in_or_app. left.
        apply in_or_app. now right.
      * rewrite Ho0 in He. destruct He as [Hqueue _].
        apply (IH _ Hend (child_path c rel) d entries); auto.
        rewrite Hqueue. apply in_or_app. right.
        now apply In_listed_dirs with (sb := sb).
    + apply (IH _ Hend d0 d entries); auto.
      destruct (opendir fs c) as [entries0 |]; destruct He as [-> _]; auto.
      apply in_or_app. now left.
Qed.

Lemma walk_empty (n : nat) (fs : filesystem) (a : usage) (st : walk_state) :
  queue st = [] -> walk n fs a st = st.
Proof. intro Hq. destruct n; cbn [walk]; [reflexivity | now rewrite Hq]. Qed.

Lemma walk_add (n m : nat) (fs : filesystem) (a : usage) :
  forall st, walk (n + m) fs a st = walk m fs a (walk n fs a st).
Proof.
  induction n as [| n IH]; intro st; [reflexivity |].
  cbn [Nat.add]. destruct (queue st) as [| d q] eqn:Hq.
  - now rewrite !(walk_empty _ fs a st Hq).
  - rewrite !(walk_step _ fs a st d q Hq). apply IH.
Qed.

Lemma walk_result_incl (n m : nat) (fs : filesystem) (a : usage)
  (st : walk_state) :
  (n <= m)%nat -> incl (result (walk n fs a st)) (result (walk m fs a st)).
Proof.
  intro Hle. replace m with (n + (m - n))%nat by lia. rewrite walk_add.
  destruct (walk_result_grows (m - n) fs a (walk n fs a st)) as (more & -> & _).
  apply incl_appl, incl_refl.
Qed.

(** A queued directory comes to the front after as many passes as there are
    directories before it. *)
Lemma walk_reaches_queued (fs : filesystem) (a : usage) (pre : list string) :
  forall st d post,
    queue st = pre ++ d :: post ->
    exists post', queue (walk (List.length pre) fs a st) = d :: post'.
Proof.
  induction pre as [| c pre IH]; intros st d post Hq.
  - exists post. exact Hq.
  - cbn [List.length]. cbn [app] in Hq.
    rewrite (walk_step _ fs a st c _ Hq).
    pose proof (expand_queue_result fs a c (pre ++ d :: post) st) as He.
    destruct (opendir fs c) as [entries |]; destruct He as [He _].
    + apply (IH _ d (post ++ listed_dirs fs c entries)).
      now rewrite He, <- app_assoc.
    + now apply (IH _ d post).
Qed.

(** Every directory that can be reached from a queued one is expanded after
    finitely many passes, and its accepted entries then stay in [result]:
    no failure elsewhere, and no amount of work elsewhere, keeps them out. *)
Lemma walk_eventually_lists (fs : filesystem) (a : usage) (d0 d : string) :
  Reach fs d0 d ->
  forall st entries,
    In d0 (queue st) -> opendir fs d = Some entries ->
    exists n, forall m,
        (n <= m)%nat ->
        incl (listed_hits fs a d entries) (result (walk m fs a st)).
Proof.
  induction 1 as [d | d entries0 rel sb d' Ho0 Hrel Hdot Hl Hd _ IH];
    intros st entries Hin Ho.
  - destruct (in_split _ _ Hin) as (pre & post & Hq).
    destruct (walk_reaches_queued fs a pre st d post Hq) as [post' Hq'].
    exists (List.length pre + 1)%nat. intros m Hm.
    eapply incl_tran; [| apply (walk_result_incl _ m fs a st Hm)].
    rewrite walk_add. cbn [walk]. rewrite Hq'.
    pose proof (expand_queue_result fs a d post'
                  (walk (List.length pre) fs a st)) as He.
    rewrite Ho in He. destruct He as [_ ->].
    apply incl_appr, incl_refl.
  - destruct (in_split _ _ Hin) as (pre & post & Hq).
    destruct (walk_reaches_queued fs a pre st d post Hq) as [post' Hq'].
    pose proof (expand_queue_result fs a d post'
                  (walk (List.length pre) fs a st)) as He.
    rewrite Ho0 in He. destruct He as [Hqueue _].
    destruct (IH (expand fs a d post' (walk (List.length pre) fs a st)) entries)
      as [n Hn]; [| exact Ho |].
    + rewrite Hqueue. apply in_or_app. right.
      now apply In_listed_dirs with (sb := sb).
    + exists (List.length pre + 1 + n)%nat. intros m Hm.
      replace m with ((List.length pre + 1) + (m - (List.length pre + 1)))%nat
        by lia.
      rewrite walk_add. rewrite (walk_add (List.length pre) 1).
      cbn [walk]. rewrite Hq'. apply Hn. lia.
Qed.

(** C4: a directory that cannot be opened costs one pass of the outer loop
    and a diagnostic and leaves queue and [result] as they were; a child that
    cannot be examined costs one pass of the inner loop and a diagnostic, and
    the loop goes on with the remaining children.  [result] only grows.
    Every accepted entry of every directory that can be opened and reached
    from the root is in [result] after finitely many passes and stays there,
    whatever failed elsewhere; in particular it is there when the walk has
    ended. *)
Theorem failures_do_not_stop_the_walk :
  forall fs a,
    (forall n d q st,
        opendir fs d = None ->
        walk (S n) fs a
             {| queue := d :: q; result := result st; events := events st |}
        = walk n fs a
               (emit [Perror "opendir"]
                  (emit [SysOpendir d]
                     {| queue := q; result := result st; events := events st |})))
    /\ (forall d rel rest st,
           dot_entry rel = false ->
           lstat fs (child_path d rel) = None ->
           scan fs a d (rel :: rest) st
           = scan fs a d rest
                  (emit [Perror "lstat"] (emit [SysLstat (child_path d rel)] st)))
    /\ (forall n st, exists more, result (walk n fs a st) = result st ++ more)
    /\ (forall r0 d entries rel sb,
           Reach fs (path a) d ->
           opendir fs d = Some entries ->
           In rel entries -> dot_entry rel = false ->
           lstat fs (child_path d rel) = Some sb ->
           S_ISDIR (st_mode sb) = false ->
           check a sb rel = true ->
           exists n, forall m,
               (n <= m)%nat -> In (child_path d rel) (result (find m fs a r0)))
    /\ (forall n r0 d entries rel sb,
           finished (find n fs a r0) = true ->
           Reach fs (path a) d ->
           opendir fs d = Some entries ->
           In rel entries -> dot_entry rel = false ->
           lstat fs (child_path d rel) = Some sb ->
           S_ISDIR (st_mode sb) = false ->
           check a sb rel = true ->
           In (child_path d rel) (result (find n fs a r0))).
Proof.
  intros fs0 a. split; [| split; [| split; [| split]]].
  - intros n d q st Ho. cbn [walk queue]. unfold expand. cbn [result events].
    now rewrite Ho.
  - intros d rel rest st Hdot Hl. cbn [scan]. unfold visit.
    change ((rel =? ".") || (rel =? ".."))%string with (dot_entry rel).
    now rewrite Hdot, Hl.
  - intros n st. destruct (walk_result_grows n fs0 a st) as (more & H & _).
    eauto.
  - intros r0 d entries rel sb HR Ho Hin Hdot Hl Hd Hc.
    destruct (walk_eventually_lists fs0 a (path a) d HR (walk_init a r0) entries)
      as [n Hn]; [now left | exact Ho |].
    exists n. intros m Hm. apply (Hn m Hm).
    now apply In_listed_hits with (sb := sb).
  - intros n r0 d entries rel sb Hfin HR Ho Hin Hdot Hl Hd Hc.
    unfold find in *.
    apply (walk_complete n fs0 a (walk_init a r0)) with (d0 := path a) (d := d)
                                                        (entries := entries).
    + unfold finished in Hfin.
      destruct (queue (walk n fs0 a (walk_init a r0))); [reflexivity | discriminate].
    + now left.
    + exact HR.
    + exact Ho.
    + now apply In_listed_hits with (sb := sb).
Qed.

Lemma failures_do_not_stop_the_walk_witness :
  opendir Demo.tree "root/locked" = None
  /\ lstat Demo.tree "root/gone" = None
  /\ finished (find 8 Demo.tree (set_path "root" usage_default) []) = true
  /\ In "root/sub/b.txt" (result (find 8 Demo.tree (set_path "root" usage_default) []))
  /\ walk 1 Demo.tree (set_path "root" usage_default)
          {| queue := ["root/locked"; "root/sub"]; result := ["root/a.txt"];
             events := [] |}
     = {| queue := ["root/sub"]; result := ["root/a.txt"];
          events := [SysOpendir "root/locked"; Perror "opendir"] |}
  /\ result (scan Demo.tree (set_path "root" usage_default) "root"
                  ["gone"; "a.txt"]
                  {| queue := []; result := []; events := [] |})
     = ["root/a.txt"].
Proof.
  destruct (failures_do_not_stop_the_walk Demo.tree
              (set_path "root" usage_default))
    as (Hdir & Hchild & _ & _ & Hall).
  split; [reflexivity |]. split; [reflexivity |]. split; [reflexivity |].
  split; [| split].
  - apply (Hall 8%nat [] "root/sub" ["."; ".."; "b.txt"] "b.txt"
             (Demo.regular 14 150)); try reflexivity.
    + apply (Reach_down Demo.tree "root"
               ["."; ".."; "a.txt"; "locked"; "gone"; "sub"] "sub"
               (Demo.directory 13) "root/sub"); try reflexivity.
      * simpl. tauto.
      * apply Reach_here.
    + simpl. tauto.
  - etransitivity.
    + exact (Hdir 0%nat "root/locked" ["root/sub"]
               {| queue := []; result := ["root/a.txt"]; events := [] |}
               eq_refl).
    + reflexivity.
  - rewrite (Hchild "root" "gone" ["a.txt"]
               {| queue := []; result := []; events := [] |} eq_refl eq_refl).
    reflexivity.
Defined.

(** ** The walk: end and scenarios *)

(** Once the queue is empty, following the loop further changes nothing. *)
Lemma walk_finished_stable (n k : nat) (fs : filesystem) (a : usage) :
  forall st,
    finished (walk n fs a st) = true ->
    walk (n + k) fs a st = walk n fs a st.
Proof.
  induction n as [| n IH]; intros st Hfin.
  - cbn [walk] in Hfin. unfold finished in Hfin. cbn [Nat.add walk].
    destruct (queue st) eqn:Hq; [| discriminate Hfin].
    destruct k; cbn [walk]; [reflexivity | now rewrite Hq].
  - cbn [Nat.add]. destruct (queue st) as [| d q] eqn:Hq.
    + cbn [walk]. now rewrite Hq.
    + rewrite !(walk_step _ fs a st d q Hq) in *. now apply IH.
Qed.

(** The scenario of the specification on the demonstration tree: the size
    filter keeps [b.txt] (150 bytes), the name filter keeps [a.txt], and
    without filters both files are reported, in discovery order. *)
Example scenario_size_over_100 :
  result (find 8 Demo.tree
            (set_size 1 100 (set_path "root" usage_default)) [])
  = ["root/sub/b.txt"].
Proof. reflexivity. Qed.

Example scenario_name :
  result (find 8 Demo.tree
            (set_name 1 "a.txt" (set_path "root" usage_default)) [])
  = ["root/a.txt"].
Proof. reflexivity. Qed.

Example scenario_no_filter :
  snd (main Demo.system ["find"; "root"]) = Exit 0
  /\ result (find 8 Demo.tree (set_path "root" usage_default) [])
     = ["root/a.txt"; "root/sub/b.txt"].
Proof. split; reflexivity. Qed.

(** * Further properties *)

(** ** The parser: what an accepted command line configures *)

Lemma stoul_range (s : string) (v : Z) :
  stoul s = Ret v -> 0 <= v < 2 ^ 64.
Proof.
  unfold stoul. destruct (strip_sign (skip_space s)) as [neg body].
  destruct (starts_with_digit body); [| discriminate].
  destruct (ULONG_MAX <? digits_acc body 0) eqn:Hr; [discriminate |].
  intro H. inversion H; subst; clear H.
  apply Z.ltb_ge in Hr. unfold ULONG_MAX in Hr.
  assert (Hnn : forall t acc, 0 <= acc -> 0 <= digits_acc t acc).
  { induction t as [| c t IH]; intros acc Hacc; cbn [digits_acc]; [lia |].
    destruct (isdigit c) eqn:Hc; [| lia].
    apply IH. unfold isdigit in Hc. unfold digit_val.
    apply andb_prop in Hc. destruct Hc as [Hc _]. apply Z.leb_le in Hc. lia. }
  specialize (Hnn body 0 (Z.le_refl 0)).
  destruct neg; [apply Z.mod_pos_bound |]; lia.
Qed.

Lemma to_off_t_range (v : Z) :
  0 <= v < 2 ^ 64 -> - 2 ^ 63 <= to_off_t v < 2 ^ 63.
Proof.
  intro H. unfold to_off_t. destruct (v <? 2 ^ 63) eqn:E.
  - apply Z.ltb_lt in E. lia.
  - apply Z.ltb_ge in E. lia.
Qed.

Lemma usage_wf_default (root : string) : usage_wf (set_path root usage_default).
Proof.
  unfold usage_wf, size_sign_ok. cbn.
  repeat split; auto; try discriminate; intro H; now elim H.
Qed.

Ltac usage_wf_fields :=
  unfold usage_wf, size_sign_ok;
  cbn [needs_inum inum needs_name name size_sign size needs_nlinks nlinks
       needs_exec exec_path set_inum set_name set_size set_nlinks set_exec].

Lemma usage_wf_set_inum (v : Z) (a : usage) :
  0 <= v < 2 ^ 64 -> usage_wf a -> usage_wf (set_inum 1 v a).
Proof.
  intro Hv. usage_wf_fields.
  intros (W1 & W2 & W3 & W4 & W5 & W6 & W7 & W8).
  repeat (split; [assumption || (right; reflexivity) || (intros _; exact Hv) |]).
  exact W8.
Qed.

Lemma usage_wf_set_nlinks (v : Z) (a : usage) :
  0 <= v < 2 ^ 64 -> usage_wf a -> usage_wf (set_nlinks 1 v a).
Proof.
  intro Hv. usage_wf_fields.
  intros (W1 & W2 & W3 & W4 & W5 & W6 & W7 & W8).
  repeat (split; [assumption || (right; reflexivity) || (intros _; exact Hv) |]).
  exact W8.
Qed.

Lemma usage_wf_set_name (s : string) (a : usage) :
  usage_wf a -> usage_wf (set_name 1 s a).
Proof.
  usage_wf_fields.
  intros (W1 & W2 & W3 & W4 & W5 & W6 & W7 & W8).
  repeat (split; [assumption || (right; reflexivity) |]).
  exact W8.
Qed.

Lemma usage_wf_set_exec (s : string) (a : usage) :
  usage_wf a -> usage_wf (set_exec 1 s a).
Proof.
  usage_wf_fields.
  intros (W1 & W2 & W3 & W4 & W5 & W6 & W7 & W8).
  repeat (split; [assumption || (right; reflexivity) |]).
  exact W8.
Qed.

Lemma usage_wf_set_size (sign v : Z) (a : usage) :
  sign = -1 \/ sign = 0 \/ sign = 1 ->
  - 2 ^ 63 <= v < 2 ^ 63 -> usage_wf a -> usage_wf (set_size sign v a).
Proof.
  intros Hsign Hv. usage_wf_fields.
  intros (W1 & W2 & W3 & W4 & W5 & W6 & W7 & W8).
  repeat (split; [assumption || (right; exact Hsign) |]).
  intros _. exact Hv.
Qed.

Lemma parse_options_invariants (l : list string) :
  forall a0 g0 a g,
    parse_options l a0 g0 = Ret (a, g) ->
    usage_wf a0 ->
    usage_wf a /\ path a = path a0
    /\ (g = g0
        \/ (ok g = false
            /\ (reason g = reason_size \/ reason g = reason_unknown))).
Proof.
  induction l as [| x | opt value rest IH] using pairs_ind;
    intros a0 g0 a g H Hwf.
  - simpl in H. inversion H; subst. auto.
  - discriminate H.
  - rewrite parse_options_pair in H.
    assert (Hset : forall a1,
               parse_options rest a1 g0 = Ret (a, g) ->
               usage_wf a1 -> path a1 = path a0 ->
               usage_wf a /\ path a = path a0
               /\ (g = g0
                   \/ (ok g = false
                       /\ (reason g = reason_size \/ reason g = reason_unknown)))).
    { intros a1 H1 Hwf1 Hp. destruct (IH _ _ _ _ H1 Hwf1) as (Ha & Hb & Hc).
      split; [exact Ha | split; [congruence | exact Hc]]. }
    clear IH.
    flag_cases opt value;
      try (destruct (stoul _) as [v | e |] eqn:Hs; cbn [bind] in H;
           try discriminate H;
           pose proof (stoul_range _ _ Hs) as Hv;
           pose proof (to_off_t_range _ Hv) as Hv');
      first
        [ apply Hset in H;
          [ exact H
          | first [ now apply usage_wf_set_inum
                  | now apply usage_wf_set_nlinks
                  | now apply usage_wf_set_name
                  | now apply usage_wf_set_exec
                  | apply usage_wf_set_size; [tauto | exact Hv' | exact Hwf] ]
          | reflexivity ]
        | inversion H; subst;
          split; [exact Hwf | split; [reflexivity |]];
          right; cbn [ok reason]; auto ].
Qed.

(** X1: what [parse_arguments] returns.  When it reports success the globals
    are untouched, the root path is [argv[1]], every flag is 0 or 1, the sign
    is [NOSIZE], -1, 0 or 1, and each configured number fits its C type.
    When it reports failure the reason is one of its two messages. *)
Theorem parse_arguments_outcome :
  forall argv a g,
    parse_arguments argv globals_init = Ret (a, g) ->
    nth_error argv 1 = Some (path a)
    /\ usage_wf a
    /\ (ok g = true -> g = globals_init)
    /\ (ok g = false -> reason g = reason_size \/ reason g = reason_unknown).
Proof.
  intros argv a g H. unfold parse_arguments in H.
  destruct (nth_error argv 1) as [root |] eqn:Hroot; [| discriminate H].
  destruct (parse_options_invariants _ _ _ _ _ H (usage_wf_default root))
    as (Hwf & Hpath & Hg).
  split; [| split; [exact Hwf | split]].
  - now rewrite Hpath.
  - intro Hok. destruct Hg as [-> | [Hf _]]; [reflexivity | congruence].
  - intro Hok. destruct Hg as [-> | [_ Hr]]; [discriminate Hok | exact Hr].
Qed.

Lemma parse_arguments_outcome_witness :
  usage_wf (set_size (-1) 100 (set_inum 1 (2 ^ 64 - 5)
                                 (set_path "root" usage_default))).
Proof.
  destruct (parse_arguments_outcome
              ["find"; "root"; "-inum"; "-5"; "-size"; "-100"]
              (set_size (-1) 100 (set_inum 1 (2 ^ 64 - 5)
                                    (set_path "root" usage_default)))
              globals_init eq_refl) as (_ & Hwf & _).
  exact Hwf.
Defined.

(** Turning the outcomes of the string tests into equations. *)
Ltac flag_facts :=
  repeat match goal with
         | H : (_ =? _)%string = true |- _ => apply String.eqb_eq in H
         | H : (_ =? _)%string = false |- _ => apply String.eqb_neq in H
         end.

(** A field is written only by the pairs that carry its own flag. *)
Lemma parse_options_untouched (l : list string) :
  forall a0 g0 a g,
    ok g0 = true ->
    parse_options l a0 g0 = Ret (a, g) -> ok g = true ->
    (~ In "-inum" (flags_of l) ->
     needs_inum a = needs_inum a0 /\ inum a = inum a0)
    /\ (~ In "-name" (flags_of l) ->
        needs_name a = needs_name a0 /\ name a = name a0)
    /\ (~ In "-size" (flags_of l) ->
        size_sign a = size_sign a0 /\ size a = size a0)
    /\ (~ In "-nlinks" (flags_of l) ->
        needs_nlinks a = needs_nlinks a0 /\ nlinks a = nlinks a0)
    /\ (~ In "-exec" (flags_of l) ->
        needs_exec a = needs_exec a0 /\ exec_path a = exec_path a0).
Proof.
  induction l as [| x | opt value rest IH] using pairs_ind;
    intros a0 g0 a g Hg0 H Hok.
  - simpl in H. inversion H; subst. tauto.
  - discriminate H.
  - rewrite parse_options_pair in H.
    change (flags_of (opt :: value :: rest)) with (opt :: flags_of rest).
    flag_cases opt value;
      try (destruct (stoul _) as [v | e |] eqn:Hs; cbn [bind] in H;
           try discriminate H);
      try (inversion H; subst; rewrite Hg0 in Hok || discriminate Hok; fail);
      try (inversion H; subst; discriminate Hok);
      flag_facts; subst;
      destruct (IH _ _ _ _ Hg0 H Hok) as (I1 & I2 & I3 & I4 & I5);
      cbn [In] in *; cbn in I1, I2, I3, I4, I5;
      (split; [| split; [| split; [| split]]]); intro Hn;
      try (exfalso; apply Hn; left; reflexivity);
      try (apply I1; tauto); try (apply I2; tauto); try (apply I3; tauto);
      try (apply I4; tauto); try (apply I5; tauto).
Qed.

Lemma signs_not_NOSIZE : -1 <> NOSIZE /\ 0 <> NOSIZE /\ 1 <> NOSIZE.
Proof. repeat split; intro H; vm_compute in H; discriminate H. Qed.

(** A filter is configured exactly when its flag stands in flag position. *)
Lemma parse_options_configured (l : list string) :
  forall a0 g0 a g,
    ok g0 = true ->
    parse_options l a0 g0 = Ret (a, g) -> ok g = true ->
    (needs_inum a = 1 <-> needs_inum a0 = 1 \/ In "-inum" (flags_of l))
    /\ (needs_name a = 1 <-> needs_name a0 = 1 \/ In "-name" (flags_of l))
    /\ (size_sign a <> NOSIZE
        <-> size_sign a0 <> NOSIZE \/ In "-size" (flags_of l))
    /\ (needs_nlinks a = 1 <-> needs_nlinks a0 = 1 \/ In "-nlinks" (flags_of l))
    /\ (needs_exec a = 1 <-> needs_exec a0 = 1 \/ In "-exec" (flags_of l)).
Proof.
  destruct signs_not_NOSIZE as (Sm & S0 & S1).
  induction l as [| x | opt value rest IH] using pairs_ind;
    intros a0 g0 a g Hg0 H Hok.
  - simpl in H. inversion H; subst. cbn [flags_of In]. tauto.
  - discriminate H.
  - rewrite parse_options_pair in H.
    change (flags_of (opt :: value :: rest)) with (opt :: flags_of rest).
    flag_cases opt value;
      try (destruct (stoul _) as [v | e |] eqn:Hs; cbn [bind] in H;
           try discriminate H);
      try (inversion H; subst; discriminate Hok);
      flag_facts; subst;
      destruct (IH _ _ _ _ Hg0 H Hok) as (I1 & I2 & I3 & I4 & I5);
      cbn [In] in *;
      cbn [needs_inum needs_name size_sign needs_nlinks needs_exec
           set_inum set_name set_size set_nlinks set_exec] in I1, I2, I3, I4, I5;
      rewrite I1, I2, I3, I4, I5;
      clear IH;
      (split; [| split; [| split; [| split]]]);
      (split;
       [ first [ solve [intros _; right; left; reflexivity]
               | intros [Hx | Hx];
                 [left; exact Hx | right; right; exact Hx] ]
       | first [ solve [intros _; left; first [reflexivity | assumption]]
               | intros [Hx | [Hx | Hx]];
                 [left; exact Hx | discriminate Hx | right; exact Hx] ] ]).
Qed.

(** X2: on an accepted command line a filter, or the executable, is
    configured exactly when its flag was given in flag position. *)
Theorem configured_iff_flag_given :
  forall prog root tail a g,
    parse_arguments (prog :: root :: tail) globals_init = Ret (a, g) ->
    ok g = true ->
    (needs_inum a = 1 <-> In "-inum" (flags_of tail))
    /\ (needs_name a = 1 <-> In "-name" (flags_of tail))
    /\ (size_sign a <> NOSIZE <-> In "-size" (flags_of tail))
    /\ (needs_nlinks a = 1 <-> In "-nlinks" (flags_of tail))
    /\ (needs_exec a = 1 <-> In "-exec" (flags_of tail)).
Proof.
  intros prog root tail a g H Hok. rewrite parse_arguments_tail in H.
  destruct (parse_options_configured tail _ globals_init _ _ eq_refl H Hok)
    as (I1 & I2 & I3 & I4 & I5).
  cbn [needs_inum needs_name size_sign needs_nlinks needs_exec
       set_path usage_default] in I1, I2, I3, I4, I5.
  rewrite I1, I2, I3, I4, I5.
  (split; [| split; [| split; [| split]]]);
    (split;
     [ intros [Hx | Hx]; [first [discriminate Hx | now elim Hx] | exact Hx]
     | intro Hx; right; exact Hx ]).
Qed.

Lemma configured_iff_flag_given_witness :
  needs_name (set_name 1 "a.txt" (set_size 1 100 (set_path "root" usage_default)))
  = 1
  /\ ~ In "-inum" (flags_of ["-size"; "+100"; "-name"; "a.txt"]).
Proof.
  destruct (configured_iff_flag_given "find" "root"
              ["-size"; "+100"; "-name"; "a.txt"]
              (set_name 1 "a.txt" (set_size 1 100 (set_path "root" usage_default)))
              globals_init eq_refl eq_refl) as (Hi & Hn & _).
  split.
  - apply Hn. simpl. tauto.
  - intro Hin. apply Hi in Hin. discriminate Hin.
Defined.

(** An accepted command line is accepted pair by pair. *)
Lemma parse_options_app_inv (pre : list string) :
  forall a0 g0 a g l,
    Nat.even (List.length pre) = true ->
    ok g0 = true ->
    parse_options (pre ++ l) a0 g0 = Ret (a, g) -> ok g = true ->
    exists a1,
      parse_options pre a0 g0 = Ret (a1, g0)
      /\ parse_options l a1 g0 = Ret (a, g).
Proof.
  induction pre as [| x | opt value rest IH] using pairs_ind;
    intros a0 g0 a g l He Hg0 H Hok.
  - exists a0. auto.
  - discriminate He.
  - change ((opt :: value :: rest) ++ l) with (opt :: value :: (rest ++ l)) in H.
    rewrite parse_options_pair in *.
    assert (Hev : Nat.even (List.length rest) = true) by exact He.
    flag_cases opt value;
      try (destruct (stoul _) as [v | e |]; cbn [bind] in H |- *;
           try discriminate H);
      try (now apply IH);
      inversion H; subst; discriminate Hok.
Qed.

(** Acceptance is decided pair by pair: what earlier pairs configured,
    and so whether a flag was given before, plays no part in it. *)
Lemma parse_options_pairwise (l : list string) :
  forall a,
    pairs_accepted l = true
    <-> exists a', parse_options l a globals_init = Ret (a', globals_init).
Proof.
  induction l as [| x | opt value rest IH] using pairs_ind; intro a.
  - split; [intros _; exists a; reflexivity | intros _; reflexivity].
  - split; [discriminate | intros [a' H]; discriminate H].
  - cbn [pairs_accepted]. unfold pair_accepted.
    rewrite !parse_options_pair. cbn [parse_options].
    flag_cases opt value;
      try (destruct (stoul _) as [v | e |]; cbn [bind]);
      cbn [ok globals_init andb];
      first [ apply IH
            | split; [discriminate | intros [a' H]; discriminate H] ].
Qed.

(** X3: a repeated flag is not an error, and the last pair given for a flag
    decides.  A list of arguments is accepted exactly when each of its pairs
    would be accepted alone, so giving a flag again never makes the parser
    fail; and on an accepted command line the value configured for a flag is
    the one of its last occurrence, whatever stood in earlier pairs with
    that flag. *)
Theorem last_value_wins :
  (forall prog root tail,
      pairs_accepted tail = true
      <-> exists a,
         parse_arguments (prog :: root :: tail) globals_init
         = Ret (a, globals_init))
  /\ (forall prog root flag v1 v2,
         pair_accepted flag v1 = true -> pair_accepted flag v2 = true ->
         exists a,
           parse_arguments [prog; root; flag; v1; flag; v2] globals_init
           = Ret (a, globals_init))
  /\ (forall prog root pre flag value post a g,
         Nat.even (List.length pre) = true ->
         parse_arguments (prog :: root :: pre ++ flag :: value :: post)
           globals_init = Ret (a, g) ->
         ok g = true ->
         ~ In flag (flags_of post) ->
         (flag = "-name" -> name a = value)
         /\ (flag = "-exec" -> exec_path a = value)
         /\ (flag = "-inum" -> stoul value = Ret (inum a))
         /\ (flag = "-nlinks" -> stoul value = Ret (nlinks a))
         /\ (flag = "-size" ->
             exists v,
               stoul (substr1 value) = Ret v /\ size a = to_off_t v
               /\ size_sign a
                  = (if (first_char value =? "-")%char then -1
                     else if (first_char value =? "=")%char then 0 else 1))).
Proof.
  assert (Hpairs : forall prog root tail,
             pairs_accepted tail = true
             <-> exists a,
                parse_arguments (prog :: root :: tail) globals_init
                = Ret (a, globals_init)).
  { intros prog root tail. rewrite parse_arguments_tail.
    apply parse_options_pairwise. }
  split; [exact Hpairs | split].
  - intros prog root flag v1 v2 H1 H2. apply Hpairs.
    cbn [pairs_accepted]. now rewrite H1, H2.
  - intros prog root pre flag value post a g He H Hok Hlast.
    rewrite parse_arguments_tail in H.
    destruct (parse_options_app_inv pre _ globals_init _ _ _ He eq_refl H Hok)
      as (a1 & _ & H1).
    rewrite parse_options_pair in H1.
    repeat split; intros ->; cbn [String.eqb Ascii.eqb Bool.eqb] in H1.
    + destruct (parse_options_untouched post _ globals_init _ _ eq_refl H1 Hok)
        as (_ & U & _).
      now destruct (U Hlast) as [_ ->].
    + destruct (parse_options_untouched post _ globals_init _ _ eq_refl H1 Hok)
        as (_ & _ & _ & _ & U).
      now destruct (U Hlast) as [_ ->].
    + destruct (stoul value) as [v | e |]; cbn [bind] in H1; try discriminate H1.
      destruct (parse_options_untouched post _ globals_init _ _ eq_refl H1 Hok)
        as (U & _).
      now destruct (U Hlast) as [_ ->].
    + destruct (stoul value) as [v | e |]; cbn [bind] in H1; try discriminate H1.
      destruct (parse_options_untouched post _ globals_init _ _ eq_refl H1 Hok)
        as (_ & _ & _ & U & _).
      now destruct (U Hlast) as [_ ->].
    + destruct (first_char value =? "-")%char;
        [| destruct (first_char value =? "=")%char;
           [| destruct (first_char value =? "+")%char ]];
        try (destruct (stoul (substr1 value)) as [v | e |]; cbn [bind] in H1;
             try discriminate H1;
             destruct (parse_options_untouched post _ globals_init _ _
                         eq_refl H1 Hok) as (_ & _ & U & _);
             destruct (U Hlast) as [-> ->]; exists v; auto).
      inversion H1; subst. discriminate Hok.
Qed.

Lemma last_value_wins_witness :
  exists a,
    parse_arguments ["find"; "root"; "-name"; "a.txt"; "-name"; "b.txt"]
      globals_init = Ret (a, globals_init)
    /\ name a = "b.txt".
Proof.
  destruct last_value_wins as (_ & Hrepeat & Hlast).
  destruct (Hrepeat "find" "root" "-name" "a.txt" "b.txt" eq_refl eq_refl)
    as [a Ha].
  exists a. split; [exact Ha |].
  destruct (Hlast "find" "root" ["-name"; "a.txt"] "-name" "b.txt" [] a
              globals_init eq_refl Ha eq_refl) as (Hn & _).
  - simpl. tauto.
  - now apply Hn.
Defined.

(** ** Numeric values: what [std::stoul] lets through *)

(** X4: how a numeric value is read.  Leading white space and one plus sign
    are skipped and everything after the digits is ignored, so a value is
    taken for the number of its digit prefix; a plain number up to 2^64 - 1
    is taken as itself.  The parser therefore treats [-inum 12abc] exactly as
    [-inum 12]. *)
Theorem numeric_value_is_read_leniently :
  (forall c s, isspace c = true -> stoul (String c s) = stoul s)
  /\ (forall s, starts_with_digit s = true -> stoul (String "+" s) = stoul s)
  /\ (forall ds junk,
         is_number ds = true -> starts_with_digit junk = false ->
         stoul (ds ++ junk) = stoul ds)
  /\ (forall ds,
         is_number ds = true -> digits_acc ds 0 <= ULONG_MAX ->
         stoul ds = Ret (digits_acc ds 0))
  /\ (forall ds junk rest a g,
         is_number ds = true -> starts_with_digit junk = false ->
         parse_options ("-inum" :: (ds ++ junk)%string :: rest) a g
         = parse_options ("-inum" :: ds :: rest) a g
         /\ parse_options ("-nlinks" :: (ds ++ junk)%string :: rest) a g
            = parse_options ("-nlinks" :: ds :: rest) a g).
Proof.
  split; [| split; [| split; [| split]]].
  - intros c s Hc. unfold stoul. cbn [skip_space]. now rewrite Hc.
  - intros s Hs. unfold stoul. cbn [skip_space].
    change (isspace "+") with false. cbn [strip_sign].
    now destruct (skip_space_digit s Hs) as [-> ->].
  - exact stoul_digits_then_junk.
  - intros ds Hn Hr. unfold is_number in Hn. apply andb_prop in Hn.
    destruct Hn as [Hs _].
    rewrite stoul_prefix; destruct (skip_space_digit ds Hs) as [-> ->];
      cbn [fst snd]; auto.
  - intros ds junk rest a g Hn Hj.
    rewrite !parse_options_pair. cbn [String.eqb Ascii.eqb Bool.eqb].
    now rewrite (stoul_digits_then_junk ds junk Hn Hj).
Qed.

Lemma numeric_value_is_read_leniently_witness :
  stoul " 12" = stoul "12"
  /\ stoul "+12" = stoul "12"
  /\ stoul "12abc" = stoul "12"
  /\ stoul "12" = Ret 12
  /\ parse_options ["-inum"; "12abc"] usage_default globals_init
     = parse_options ["-inum"; "12"] usage_default globals_init.
Proof.
  destruct numeric_value_is_read_leniently as (Hsp & Hplus & Hjunk & Hnum & Hp).
  split; [| split; [| split; [| split]]].
  - apply Hsp. reflexivity.
  - apply Hplus. reflexivity.
  - apply (Hjunk "12" "abc"); reflexivity.
  - apply (Hnum "12"); [reflexivity | discriminate].
  - apply (Hp "12" "abc" [] usage_default globals_init); reflexivity.
Defined.

(** ** The matcher: one conjunct per filter *)

(** X5: each of the inode, name and link-count filters adds one comparison to
    the conjunction and leaves the others as they are; so configuring a
    filter can only remove matches, never add one. *)
Theorem each_filter_narrows :
  forall a v s sb nm,
    check (set_inum 1 v a) sb nm
    = check (set_inum 0 v a) sb nm && (v =? st_ino sb)
    /\ check (set_name 1 s a) sb nm
       = check (set_name 0 s a) sb nm && (s =? nm)%string
    /\ check (set_nlinks 1 v a) sb nm
       = check (set_nlinks 0 v a) sb nm && (v =? st_nlink sb)
    /\ (check (set_inum 1 v a) sb nm = true ->
        check (set_inum 0 v a) sb nm = true /\ st_ino sb = v)
    /\ (check (set_name 1 s a) sb nm = true ->
        check (set_name 0 s a) sb nm = true /\ nm = s)
    /\ (check (set_nlinks 1 v a) sb nm = true ->
        check (set_nlinks 0 v a) sb nm = true /\ st_nlink sb = v).
Proof.
  intros a v s sb nm.
  assert (Hi : check (set_inum 1 v a) sb nm
               = check (set_inum 0 v a) sb nm && (v =? st_ino sb)).
  { rewrite !check_spec. unfold spec_matches, spec_active_filters.
    cbn [set_inum needs_nlinks nlinks needs_name name needs_inum inum
         size_sign size Z.eqb].
    rewrite !forallb_app. cbn [forallb spec_satisfies].
    rewrite (Z.eqb_sym v).
    repeat match goal with
           | |- context [forallb ?f ?l] =>
             let b := fresh "b" in generalize (forallb f l); intro b
           end.
    destruct (st_ino sb =? v); cbn [andb];
      repeat match goal with b : bool |- _ => destruct b end; reflexivity. }
  assert (Hn : check (set_name 1 s a) sb nm
               = check (set_name 0 s a) sb nm && (s =? nm)%string).
  { rewrite !check_spec. unfold spec_matches, spec_active_filters.
    cbn [set_name needs_nlinks nlinks needs_name name needs_inum inum
         size_sign size Z.eqb].
    rewrite !forallb_app. cbn [forallb spec_satisfies].
    rewrite (String.eqb_sym s).
    repeat match goal with
           | |- context [forallb ?f ?l] =>
             let b := fresh "b" in generalize (forallb f l); intro b
           end.
    destruct (nm =? s)%string; cbn [andb];
      repeat match goal with b : bool |- _ => destruct b end; reflexivity. }
  assert (Hl : check (set_nlinks 1 v a) sb nm
               = check (set_nlinks 0 v a) sb nm && (v =? st_nlink sb)).
  { rewrite !check_spec. unfold spec_matches, spec_active_filters.
    cbn [set_nlinks needs_nlinks nlinks needs_name name needs_inum inum
         size_sign size Z.eqb].
    rewrite !forallb_app. cbn [forallb spec_satisfies].
    rewrite (Z.eqb_sym v).
    repeat match goal with
           | |- context [forallb ?f ?l] =>
             let b := fresh "b" in generalize (forallb f l); intro b
           end.
    destruct (st_nlink sb =? v); cbn [andb];
      repeat match goal with b : bool |- _ => destruct b end; reflexivity. }
  repeat split; auto.
  - rewrite Hi in H. now apply andb_prop in H.
  - rewrite Hi in H. apply andb_prop in H. destruct H as [_ H].
    apply Z.eqb_eq in H. auto.
  - rewrite Hn in H. now apply andb_prop in H.
  - rewrite Hn in H. apply andb_prop in H. destruct H as [_ H].
    apply String.eqb_eq in H. auto.
  - rewrite Hl in H. now apply andb_prop in H.
  - rewrite Hl in H. apply andb_prop in H. destruct H as [_ H].
    apply Z.eqb_eq in H. auto.
Qed.

Lemma each_filter_narrows_witness :
  st_ino (Demo.regular 14 150) = 14 /\ "b.txt" = "b.txt".
Proof.
  destruct (each_filter_narrows (set_path "root" usage_default) 14 "b.txt"
              (Demo.regular 14 150) "b.txt") as (_ & _ & _ & Hi & Hn & _).
  split; [apply Hi | apply Hn]; reflexivity.
Defined.

(** ** The walk: what is reported, and in which order *)

Lemma Reach_trans (fs : filesystem) (d1 d2 d3 : string) :
  Reach fs d1 d2 -> Reach fs d2 d3 -> Reach fs d1 d3.
Proof.
  induction 1 as [d | d entries rel sb d' Ho Hin Hdot Hl Hd _ IH]; intro H23.
  - exact H23.
  - eapply Reach_down; eauto.
Qed.

Lemma listed_dirs_inv (fs : filesystem) (d c : string) (entries : list string) :
  In c (listed_dirs fs d entries) ->
  exists rel sb,
    In rel entries /\ dot_entry rel = false /\ c = child_path d rel /\
    lstat fs c = Some sb /\ S_ISDIR (st_mode sb) = true.
Proof.
  induction entries as [| x rest IH]; cbn [listed_dirs]; [contradiction |].
  intro Hin.
  assert (Hrest : In c (listed_dirs fs d rest) ->
                  exists rel sb,
                    In rel (x :: rest) /\ dot_entry rel = false /\
                    c = child_path d rel /\ lstat fs c = Some sb /\
                    S_ISDIR (st_mode sb) = true).
  { intro H. destruct (IH H) as (rel & sb & H1 & H2).
    exists rel, sb. split; [now right | exact H2]. }
  destruct (dot_entry x) eqn:Hdot; [auto |].
  destruct (lstat fs (child_path d x)) as [sb |] eqn:Hl; [| auto].
  destruct (S_ISDIR (st_mode sb)) eqn:Hd; [| auto].
  destruct Hin as [<- | Hin]; [| auto].
  exists x, sb. repeat split; auto. now left.
Qed.

Lemma listed_hits_inv (fs : filesystem) (a : usage) (d p : string)
  (entries : list string) :
  In p (listed_hits fs a d entries) ->
  exists rel sb,
    In rel entries /\ dot_entry rel = false /\ p = child_path d rel /\
    lstat fs p = Some sb /\ S_ISDIR (st_mode sb) = false /\
    check a sb rel = true.
Proof.
  induction entries as [| x rest IH]; cbn [listed_hits]; [contradiction |].
  intro Hin.
  assert (Hrest : In p (listed_hits fs a d rest) ->
                  exists rel sb,
                    In rel (x :: rest) /\ dot_entry rel = false /\
                    p = child_path d rel /\ lstat fs p = Some sb /\
                    S_ISDIR (st_mode sb) = false /\ check a sb rel = true).
  { intro H. destruct (IH H) as (rel & sb & H1 & H2).
    exists rel, sb. split; [now right | exact H2]. }
  destruct (dot_entry x) eqn:Hdot; [auto |].
  destruct (lstat fs (child_path d x)) as [sb |] eqn:Hl; [| auto].
  destruct (S_ISDIR (st_mode sb)) eqn:Hd; [auto |].
  destruct (check a sb x) eqn:Hc; [| auto].
  destruct Hin as [<- | Hin]; [| auto].
  exists x, sb. repeat split; auto. now left.
Qed.

Lemma expand_children_hits (fs : filesystem) (a : usage) (d : string)
  (q : list string) (st : walk_state) :
  queue (expand fs a d q st) = q ++ children fs d
  /\ result (expand fs a d q st) = result st ++ hits fs a d.
Proof.
  pose proof (expand_queue_result fs a d q st) as He.
  unfold children, hits.
  destruct (opendir fs d); destruct He as [-> ->]; [auto |].
  now rewrite !app_nil_r.
Qed.

Lemma children_reachable (fs : filesystem) (root d c : string) :
  Reach fs root d -> In c (children fs d) -> Reach fs root c.
Proof.
  unfold children. intros HR Hin.
  destruct (opendir fs d) as [entries |] eqn:Ho; [| contradiction].
  destruct (listed_dirs_inv fs d c entries Hin)
    as (rel & sb & Hrel & Hdot & -> & Hl & Hd).
  apply (Reach_trans fs root d); [exact HR |].
  eapply Reach_down; eauto. apply Reach_here.
Qed.

Lemma hits_reported (fs : filesystem) (a : usage) (d p : string) :
  Reach fs (path a) d -> In p (hits fs a d) -> reported_entry fs a p.
Proof.
  unfold hits. intros HR Hin.
  destruct (opendir fs d) as [entries |] eqn:Ho; [| contradiction].
  destruct (listed_hits_inv fs a d p entries Hin)
    as (rel & sb & Hrel & Hdot & Hp & Hl & Hd & Hc).
  exists d, entries, rel, sb. repeat split; auto.
Qed.

Lemma walk_sound (n : nat) (fs : filesystem) (a : usage) :
  forall st,
    Forall (Reach fs (path a)) (queue st) ->
    Forall (reported_entry fs a) (result st) ->
    Forall (Reach fs (path a)) (queue (walk n fs a st))
    /\ Forall (reported_entry fs a) (result (walk n fs a st)).
Proof.
  induction n as [| n IH]; intros st Hq Hr; [auto |].
  destruct (queue st) as [| d q] eqn:Eq.
  - rewrite (walk_empty _ fs a st Eq). rewrite Eq. auto.
  - rewrite (walk_step n fs a st d q Eq).
    destruct (expand_children_hits fs a d q st) as [Hq' Hr'].
    inversion Hq as [| ? ? Hd Hq0]; subst.
    apply IH.
    + rewrite Hq'. apply Forall_app. split; [exact Hq0 |].
      apply Forall_forall. intros c Hc. now apply children_reachable with (d := d).
    + rewrite Hr'. apply Forall_app. split; [exact Hr |].
      apply Forall_forall. intros p Hp. now apply hits_reported with (d := d).
Qed.

(** X6: whatever the tree and however long the walk is followed, [result]
    holds only accepted non-directory children listed in directories that
    were opened on a path of directories down from the root, and the queue
    holds only directories so reached: nothing is reported, or visited, from
    outside the tree under the root. *)
Theorem find_reports_only_reachable_entries :
  forall n fs a,
    Forall (reported_entry fs a) (result (find n fs a []))
    /\ Forall (Reach fs (path a)) (queue (find n fs a [])).
Proof.
  intros n fs0 a. unfold find.
  destruct (walk_sound n fs0 a (walk_init a [])) as [Hq Hr].
  - constructor; [apply Reach_here | constructor].
  - constructor.
  - auto.
Qed.

(** X7: when the walk has ended, [result] is exactly the set of reported
    entries: a path is in it if and only if it is an accepted non-directory
    child listed in a directory that can be opened and reached from the
    root. *)
Theorem find_result_is_exact :
  forall n fs a p,
    finished (find n fs a []) = true ->
    (In p (result (find n fs a [])) <-> reported_entry fs a p).
Proof.
  intros n fs0 a p Hfin. split.
  - intro Hin. unfold find in Hin.
    destruct (walk_sound n fs0 a (walk_init a [])) as [_ Hr].
    + constructor; [apply Reach_here | constructor].
    + constructor.
    + rewrite Forall_forall in Hr. now apply Hr.
  - intros (d & entries & rel & sb & HR & Ho & Hrel & Hdot & -> & Hl & Hd & Hc).
    unfold find in *.
    apply (walk_complete n fs0 a (walk_init a [])) with (d0 := path a) (d := d)
                                                        (entries := entries).
    + unfold finished in Hfin.
      destruct (queue (walk n fs0 a (walk_init a []))); [reflexivity | discriminate].
    + now left.
    + exact HR.
    + exact Ho.
    + now apply In_listed_hits with (sb := sb).
Qed.

Lemma find_result_is_exact_witness :
  reported_entry Demo.tree (set_path "root" usage_default) "root/sub/b.txt".
Proof.
  refine (proj1 (find_result_is_exact 8 Demo.tree
                   (set_path "root" usage_default) "root/sub/b.txt" _) _).
  - reflexivity.
  - vm_compute. tauto.
Defined.

(** After as many passes as the queue holds directories, these have all been
    expanded in order, and the queue holds what they appended. *)
Lemma walk_round (fs : filesystem) (a : usage) (pre : list string) :
  forall post st,
    queue st = pre ++ post ->
    queue (walk (List.length pre) fs a st) = post ++ flat_map (children fs) pre
    /\ result (walk (List.length pre) fs a st)
       = result st ++ flat_map (hits fs a) pre.
Proof.
  induction pre as [| d pre IH]; intros post st Hq.
  - cbn [List.length walk flat_map]. now rewrite !app_nil_r.
  - cbn [List.length flat_map]. cbn [app] in Hq.
    rewrite (walk_step _ fs a st d _ Hq).
    destruct (expand_children_hits fs a d (pre ++ post) st) as [Hq' Hr'].
    destruct (IH (post ++ children fs d) (expand fs a d (pre ++ post) st))
      as [-> ->].
    + now rewrite Hq', app_assoc.
    + now rewrite Hr', !app_assoc.
Qed.

(** The queue after the passes for the levels below [k]. *)
Lemma find_queue_levels (fs : filesystem) (a : usage) (r0 : list string)
  (k : nat) :
  queue (find (List.length (levels_below fs (path a) k)) fs a r0)
  = level fs (path a) k.
Proof.
  unfold find. induction k as [| k IH]; [reflexivity |].
  cbn [levels_below level]. rewrite length_app, walk_add.
  destruct (walk_round fs a (level fs (path a) k) []
              (walk (List.length (levels_below fs (path a) k)) fs a
                    (walk_init a r0))) as [-> _]; [| reflexivity].
  now rewrite app_nil_r.
Qed.

(** X8: the walk is breadth-first.  After the passes that expand every
    directory of depth below [k], the queue is exactly the directories of
    depth [k], in the order in which their parents listed them, and [result]
    is what was there before followed by the matches of the directories of
    depth 0, then of depth 1, and so on, each directory contributing its
    matches in listing order. *)
Theorem find_is_breadth_first :
  forall fs a r0 k,
    queue (find (List.length (levels_below fs (path a) k)) fs a r0)
    = level fs (path a) k
    /\ result (find (List.length (levels_below fs (path a) k)) fs a r0)
       = r0 ++ flat_map (hits fs a) (levels_below fs (path a) k).
Proof.
  intros fs0 a r0 k. split; [apply find_queue_levels |].
  unfold find. induction k as [| k IH].
  - cbn [levels_below List.length walk flat_map walk_init result].
    now rewrite app_nil_r.
  - cbn [levels_below]. rewrite length_app, walk_add.
    destruct (walk_round fs0 a (level fs0 (path a) k) []
                (walk (List.length (levels_below fs0 (path a) k)) fs0 a
                      (walk_init a r0))) as [_ ->].
    + rewrite app_nil_r. apply (find_queue_levels fs0 a r0 k).
    + now rewrite IH, flat_map_app, app_assoc.
Qed.

Lemma level_rank (fs : filesystem) (root : string) (rank : string -> nat) :
  (forall d c, In c (children fs d) -> (rank c < rank d)%nat) ->
  forall k d, In d (level fs root k) -> (rank d + k <= rank root)%nat.
Proof.
  intros Hrank. induction k as [| k IH]; intros d Hd.
  - cbn [level] in Hd. destruct Hd as [<- | []]. lia.
  - cbn [level] in Hd. apply in_flat_map in Hd. destruct Hd as (p & Hp & Hc).
    specialize (IH p Hp). specialize (Hrank p d Hc). lia.
Qed.

(** X9: the walk ends on every tree without endless descent.  If some rank
    decreases from each directory to each directory listed in it, the queue
    is empty after the passes for the levels up to the rank of the root, one
    pass per directory met, whether it could be opened or not. *)
Theorem find_ends_on_ranked_tree :
  forall fs a r0 (rank : string -> nat),
    (forall d c, In c (children fs d) -> (rank c < rank d)%nat) ->
    finished
      (find (List.length (levels_below fs (path a) (S (rank (path a))))) fs a r0)
    = true.
Proof.
  intros fs0 a r0 rank Hrank.
  unfold finished. rewrite find_queue_levels.
  destruct (level fs0 (path a) (S (rank (path a)))) as [| d l] eqn:Hl;
    [reflexivity |].
  pose proof (level_rank fs0 (path a) rank Hrank (S (rank (path a))) d) as H.
  rewrite Hl in H. specialize (H (or_introl eq_refl)). lia.
Qed.

Lemma find_ends_on_ranked_tree_witness :
  finished (find 3 Demo.tree (set_path "root" usage_default) []) = true.
Proof.
  apply (find_ends_on_ranked_tree Demo.tree (set_path "root" usage_default) []
           (fun p => if (p =? "root")%string then 1%nat else 0%nat)).
  intros d c. unfold children. cbn [opendir Demo.tree].
  destruct (d =? "root")%string eqn:E1.
  - apply String.eqb_eq in E1. subst d. vm_compute.
    intros [<- | [<- | []]]; reflexivity.
  - destruct (d =? "root/sub")%string eqn:E2.
    + apply String.eqb_eq in E2. subst d. vm_compute. intros [].
    + intros [].
Defined.

(** ** The walk: system calls *)

Lemma visit_events_eq (fs : filesystem) (a : usage) (d rel : string)
  (st : walk_state) :
  events (visit fs a d rel st) = events st ++ visit_events fs d rel.
Proof.
  unfold visit, visit_events.
  change ((rel =? ".") || (rel =? ".."))%string with (dot_entry rel).
  destruct (dot_entry rel); [now rewrite app_nil_r |].
  destruct (lstat fs (child_path d rel)) as [sb |].
  - destruct (S_ISDIR (st_mode sb)); [| destruct (check a sb rel)]; reflexivity.
  - cbn [events emit]. now rewrite <- app_assoc.
Qed.

Lemma scan_events_eq (fs : filesystem) (a : usage) (d : string)
  (entries : list string) :
  forall st,
    events (scan fs a d entries st)
    = events st ++ flat_map (visit_events fs d) entries.
Proof.
  induction entries as [| rel rest IH]; intro st; cbn [scan flat_map].
  - now rewrite app_nil_r.
  - now rewrite IH, visit_events_eq, app_assoc.
Qed.

Lemma expand_events_eq (fs : filesystem) (a : usage) (d : string)
  (q : list string) (st : walk_state) :
  events (expand fs a d q st) = events st ++ pass_events fs d.
Proof.
  unfold expand, pass_events. destruct (opendir fs d) as [entries |].
  - cbn [events emit]. rewrite scan_events_eq. cbn [events emit].
    now rewrite <- !app_assoc.
  - cbn [events emit]. now rewrite <- app_assoc.
Qed.

(** The events of a walk are those of the passes for the directories it
    expanded, all of them reached from the queue it started with. *)
Lemma walk_events_passes (n : nat) (fs : filesystem) (a : usage) :
  forall st,
    Forall (Reach fs (path a)) (queue st) ->
    exists ds,
      events (walk n fs a st) = events st ++ flat_map (pass_events fs) ds
      /\ Forall (Reach fs (path a)) ds.
Proof.
  induction n as [| n IH]; intros st Hq.
  - exists []. cbn [walk flat_map]. now rewrite app_nil_r.
  - destruct (queue st) as [| d q] eqn:Eq.
    + exists []. rewrite (walk_empty _ fs a st Eq). cbn [flat_map].
      now rewrite app_nil_r.
    + rewrite (walk_step n fs a st d q Eq).
      inversion Hq as [| ? ? Hd Hq0]; subst.
      destruct (IH (expand fs a d q st)) as (ds & -> & Hds).
      * destruct (expand_children_hits fs a d q st) as [-> _].
        apply Forall_app. split; [exact Hq0 |].
        apply Forall_forall. intros c Hc.
        now apply children_reachable with (d := d).
      * exists (d :: ds). rewrite expand_events_eq. cbn [flat_map].
        rewrite <- app_assoc. auto.
Qed.

Lemma count_app (f : event -> bool) (l1 l2 : list event) :
  count f (l1 ++ l2) = (count f l1 + count f l2)%nat.
Proof. unfold count. now rewrite filter_app, length_app. Qed.

Lemma count_visits (fs : filesystem) (d : string) (entries : list string) :
  count is_opendir (flat_map (visit_events fs d) entries) = 0%nat
  /\ count is_closedir (flat_map (visit_events fs d) entries) = 0%nat
  /\ count (is_perror "opendir") (flat_map (visit_events fs d) entries) = 0%nat.
Proof.
  induction entries as [| rel rest (I1 & I2 & I3)]; [repeat split |].
  cbn [flat_map]. rewrite !count_app, I1, I2, I3.
  unfold visit_events. destruct (dot_entry rel); [repeat split |].
  destruct (lstat fs (child_path d rel)); repeat split.
Qed.

Lemma count_pass (fs : filesystem) (d : string) :
  count is_opendir (pass_events fs d)
  = (count is_closedir (pass_events fs d)
     + count (is_perror "opendir") (pass_events fs d))%nat.
Proof.
  unfold pass_events.
  change (SysOpendir d :: ?l) with ([SysOpendir d] ++ l).
  destruct (opendir fs d) as [entries |].
  - destruct (count_visits fs d entries) as (H1 & H2 & H3).
    change (SysOpendir d
            :: flat_map (visit_events fs d) entries ++ [SysClosedir d])
      with ([SysOpendir d]
              ++ flat_map (visit_events fs d) entries ++ [SysClosedir d]).
    rewrite !count_app, H1, H2, H3. reflexivity.
  - reflexivity.
Qed.

(** X10: directory handles are not leaked.  At the end of every pass of the
    outer loop, each [opendir] made so far either failed, and was reported,
    or has been answered by a [closedir]: the calls made equal the closes
    plus the reported failures. *)
Theorem find_closes_what_it_opens :
  forall n fs a r0,
    count is_opendir (events (find n fs a r0))
    = (count is_closedir (events (find n fs a r0))
       + count (is_perror "opendir") (events (find n fs a r0)))%nat.
Proof.
  intros n fs0 a r0. unfold find.
  destruct (walk_events_passes n fs0 a (walk_init a r0)) as (ds & -> & _).
  { constructor; [apply Reach_here | constructor]. }
  cbn [events walk_init app].
  induction ds as [| d ds IH]; [reflexivity |].
  cbn [flat_map]. rewrite !count_app, IH, count_pass. lia.
Qed.

Lemma pass_walk_events (fs : filesystem) (a : usage) (d : string) :
  Reach fs (path a) d -> Forall (walk_event fs a) (pass_events fs d).
Proof.
  intro HR. unfold pass_events. constructor; [exact HR |].
  destruct (opendir fs d) as [entries |] eqn:Ho.
  - apply Forall_app. split.
    + apply Forall_forall. intros e He. apply in_flat_map in He.
      destruct He as (rel & Hrel & He). unfold visit_events in He.
      destruct (dot_entry rel) eqn:Hdot; [contradiction |].
      destruct He as [<- | He].
      * exists d, entries, rel. auto.
      * destruct (lstat fs (child_path d rel)); [contradiction |].
        destruct He as [<- | []]. now right.
    + constructor; [| constructor]. split; [exact HR | congruence].
  - constructor; [now left | constructor].
Qed.

(** X11: the walk stays inside the tree and does nothing else.  Every event
    of [find] is an [opendir] or [closedir] of a directory reached from the
    root, an [lstat] of a child other than [.] and [..] listed in such a
    directory, or the report of a failed [opendir] or [lstat]; it writes
    nothing to standard output and starts no process. *)
Theorem find_stays_inside_the_tree :
  forall n fs a r0,
    Forall (walk_event fs a) (events (find n fs a r0)).
Proof.
  intros n fs0 a r0. unfold find.
  destruct (walk_events_passes n fs0 a (walk_init a r0)) as (ds & -> & Hds).
  { constructor; [apply Reach_here | constructor]. }
  cbn [events walk_init app].
  induction Hds as [| d ds Hd _ IH]; [constructor |].
  cbn [flat_map]. apply Forall_app. split; [| exact IH].
  now apply pass_walk_events.
Qed.

(** ** The executor: waiting for the child *)

Lemma wait_loop_keeps (r : Z * Z) (rest : list (Z * Z)) :
  keeps_waiting r = true ->
  wait_loop (r :: rest)
  = (wait_events r ++ fst (wait_loop rest), snd (wait_loop rest)).
Proof.
  destruct r as [wait_pid status]. unfold keeps_waiting. cbn [fst snd].
  intro H. apply andb_prop in H. destruct H as [H H3].
  apply andb_prop in H. destruct H as [H1 H2].
  cbn [wait_loop]. apply negb_true_iff in H1. rewrite H1, H2, H3. cbn [andb].
  destruct (wait_loop rest) as [es t]. reflexivity.
Qed.

Lemma wait_loop_ends (r : Z * Z) (rest : list (Z * Z)) :
  ends_waiting r = true -> wait_loop (r :: rest) = (wait_events r, None).
Proof.
  destruct r as [wait_pid status]. unfold ends_waiting. cbn [fst snd].
  intro H. apply andb_prop in H. destruct H as [H1 H2].
  cbn [wait_loop]. apply negb_true_iff in H1. rewrite H1.
  destruct (WIFEXITED status), (WIFSIGNALED status);
    try discriminate H2; reflexivity.
Qed.

(** X12: the parent waits until the child has exited or was killed.  Statuses
    that report a stop or a continuation are printed and waited over; the
    first exit or kill is printed and ends the loop, and nothing after it is
    read; an error from [waitpid] ends the program with [EXIT_FAILURE]; if
    no such return ever comes the parent never gets out of the loop. *)
Theorem parent_waits_until_exit_or_kill :
  forall ws,
    forallb keeps_waiting ws = true ->
    wait_loop ws = (flat_map wait_events ws ++ [SysWaitpid], Some Unfinished)
    /\ (forall r rest,
           ends_waiting r = true ->
           wait_loop (ws ++ r :: rest) = (flat_map wait_events (ws ++ [r]), None))
    /\ (forall status rest,
           wait_loop (ws ++ (-1, status) :: rest)
           = (flat_map wait_events ws ++ [SysWaitpid; Perror "waitpid"],
              Some (Exit EXIT_FAILURE))).
Proof.
  induction ws as [| r0 ws IH]; intro Hk.
  - split; [reflexivity | split].
    + intros r rest Hr. cbn [app flat_map]. rewrite app_nil_r.
      now apply wait_loop_ends.
    + reflexivity.
  - cbn [forallb] in Hk. apply andb_prop in Hk. destruct Hk as [Hr0 Hk].
    destruct (IH Hk) as (I1 & I2 & I3).
    split; [| split].
    + rewrite (wait_loop_keeps r0 ws Hr0), I1. cbn [fst snd flat_map].
      now rewrite app_assoc.
    + intros r rest Hr. cbn [app].
      rewrite (wait_loop_keeps r0 _ Hr0), (I2 r rest Hr). reflexivity.
    + intros status rest. cbn [app].
      rewrite (wait_loop_keeps r0 _ Hr0), I3. cbn [fst snd flat_map].
      now rewrite app_assoc.
Qed.

Lemma parent_waits_until_exit_or_kill_witness :
  wait_loop [(7, 4991); (7, 65535); (7, 768); (7, 0)]
  = ([SysWaitpid;
      Printf ("Was stopped by signal %d" ++ newline)%string (Some 19);
      SysWaitpid; Printf ("Was continued" ++ newline)%string None;
      SysWaitpid;
      Printf ("Normal exited, status = %d" ++ newline)%string (Some 3)],
     None).
Proof.
  destruct (parent_waits_until_exit_or_kill [(7, 4991); (7, 65535)] eq_refl)
    as (_ & Hend & _).
  etransitivity; [exact (Hend (7, 768) [(7, 0)] eq_refl) | reflexivity].
Defined.

Lemma wait_loop_outcomes (ws : list (Z * Z)) :
  (forall e, In e (fst (wait_loop ws)) ->
             e = SysWaitpid \/ e = Perror "waitpid"
             \/ exists fmt arg, e = Printf fmt arg)
  /\ (snd (wait_loop ws) = None -> exists r, In r ws /\ ends_waiting r = true)
  /\ (snd (wait_loop ws) = Some (Exit EXIT_FAILURE) ->
      exists status, In (-1, status) ws)
  /\ (snd (wait_loop ws) = None \/ snd (wait_loop ws) = Some Unfinished
      \/ snd (wait_loop ws) = Some (Exit EXIT_FAILURE)).
Proof.
  assert (Hrep : forall status e,
             In e (report status) -> exists fmt arg, e = Printf fmt arg).
  { intros status e. unfold report.
    destruct (WIFEXITED status); [intros [<- | []]; eauto |].
    destruct (WIFSIGNALED status); [intros [<- | []]; eauto |].
    destruct (WIFSTOPPED status); [intros [<- | []]; eauto |].
    destruct (WIFCONTINUED status); [intros [<- | []]; eauto | intros []]. }
  induction ws as [| [wait_pid status] ws (I1 & I2 & I3 & I4)].
  - cbn [wait_loop fst snd]. repeat split; try discriminate; auto.
    intros e [<- | []]. auto.
  - cbn [wait_loop]. destruct (wait_pid =? -1) eqn:Hp.
    + apply Z.eqb_eq in Hp. subst wait_pid. cbn [fst snd].
      repeat split; try discriminate; auto.
      * intros e [<- | [<- | []]]; auto.
      * intros _. exists status. now left.
    + destruct (negb (WIFEXITED status) && negb (WIFSIGNALED status)) eqn:Hk.
      * destruct (wait_loop ws) as [es t]. cbn [fst snd] in *.
        repeat split; auto.
        -- intros e [<- | He]; [auto |]. apply in_app_or in He.
           destruct He as [He | He]; [right; right; eauto | auto].
        -- intro Ht. destruct (I2 Ht) as (r & Hr & He). exists r. split; auto.
           now right.
        -- intro Ht. destruct (I3 Ht) as (s & Hs). exists s. now right.
      * cbn [fst snd]. repeat split; try discriminate; auto.
        -- intros e [<- | He]; [auto | right; right; eauto].
        -- intros _. exists (wait_pid, status). split; [now left |].
           unfold ends_waiting. cbn [fst snd]. rewrite Hp. cbn [negb andb].
           destruct (WIFEXITED status), (WIFSIGNALED status);
             try discriminate Hk; reflexivity.
Qed.

(** X13: who does what after [fork].  Only the process in which [fork]
    returned 0 calls [execv], once, and it never waits; the parent and a
    failed [fork] never call [execv]; a failed [fork] is reported and ends
    the program with [EXIT_FAILURE] at once.  [execute] returns to [main]
    only in the parent after a child's exit or kill was seen, or in the
    child if [execv] came back with something other than -1. *)
Theorem execute_roles :
  forall w filepath result,
    (fork_ret w = 0 ->
     count is_execv (fst (execute w filepath result)) = 1%nat
     /\ count is_waitpid (fst (execute w filepath result)) = 0%nat)
    /\ (fork_ret w <> 0 ->
        count is_execv (fst (execute w filepath result)) = 0%nat)
    /\ (fork_ret w = -1 ->
        execute w filepath result
        = ([SysFork; Perror "fork"], Some (Exit EXIT_FAILURE)))
    /\ (snd (execute w filepath result) = None ->
        (fork_ret w = 0 /\ exists err, execv_ret w = Some err /\ err <> -1)
        \/ (fork_ret w <> 0 /\ fork_ret w <> -1
            /\ exists r, In r (waits w) /\ ends_waiting r = true)).
Proof.
  intros w filepath result. unfold execute.
  split; [| split; [| split]].
  - intros ->. cbn [Z.eqb].
    destruct (execv_ret w) as [err |]; [destruct (err =? -1) |]; split;
      reflexivity.
  - intro Hne. destruct (fork_ret w =? -1); [reflexivity |].
    apply Z.eqb_neq in Hne. rewrite Hne.
    destruct (wait_loop_outcomes (waits w)) as (Hev & _).
    destruct (wait_loop (waits w)) as [es t]. cbn [fst] in *.
    change (SysFork :: es) with ([SysFork] ++ es). rewrite count_app.
    cbn [count List.filter is_execv List.length Nat.add]. unfold count.
    replace (List.filter is_execv es) with (@nil event); [reflexivity |].
    clear -Hev. induction es as [| e es IH]; [reflexivity |].
    cbn [List.filter].
    destruct (Hev e (or_introl eq_refl)) as [-> | [-> | (fmt & arg & ->)]];
      cbn [is_execv]; apply IH; intros e' He'; apply Hev; now right.
  - intros ->. reflexivity.
  - destruct (fork_ret w =? -1) eqn:H1; [discriminate |].
    destruct (fork_ret w =? 0) eqn:H0.
    + apply Z.eqb_eq in H0. intro Hret. left. split; [exact H0 |].
      destruct (execv_ret w) as [err |]; [| discriminate Hret].
      destruct (err =? -1) eqn:He; [discriminate Hret |].
      apply Z.eqb_neq in He. eauto.
    + apply Z.eqb_neq in H0, H1. intro Hret. right.
      destruct (wait_loop_outcomes (waits w)) as (_ & Hnone & _).
      destruct (wait_loop (waits w)) as [es t]. cbn [snd] in *. auto.
Qed.

Lemma execute_roles_witness :
  count is_execv (fst (execute Demo.system "/bin/echo" ["root/a.txt"])) = 1%nat
  /\ execute {| fs := Demo.tree; fuel := 8; fork_ret := -1;
                execv_ret := None; waits := [] |} "/bin/echo" ["root/a.txt"]
     = ([SysFork; Perror "fork"], Some (Exit EXIT_FAILURE)).
Proof.
  split.
  - destruct (execute_roles Demo.system "/bin/echo" ["root/a.txt"])
      as (Hchild & _).
    now destruct (Hchild eq_refl).
  - destruct (execute_roles
                {| fs := Demo.tree; fuel := 8; fork_ret := -1;
                   execv_ret := None; waits := [] |}
                "/bin/echo" ["root/a.txt"]) as (_ & _ & Hfail & _).
    now apply Hfail.
Defined.

(** ** The driver *)

Lemma main_not_accepted (w : world) (argv : list string) :
  (forall a g, parse_arguments argv globals_init = Ret (a, g) -> ok g = false) ->
  exists out t,
    main w argv = (out, t)
    /\ (forall e, In e out ->
                  e = Cout help \/ e = Cout warning
                  \/ exists rsn, e = Cerr (rsn ++ ", see help")%string)
    /\ t <> Exit 0
    /\ (t = Exit EXIT_FAILURE ->
        exists a g, parse_arguments argv globals_init = Ret (a, g)).
Proof.
  intro Hno. unfold main.
  set (out := if Z.of_nat (List.length argv) <=? 1
              then [Cout help] ++ [Cout warning] else [Cout help]).
  assert (Hout : forall e, In e out -> e = Cout help \/ e = Cout warning).
  { intro e. unfold out. destruct (Z.of_nat (List.length argv) <=? 1);
      cbn [app In]; intuition (subst; auto). }
  destruct (parse_arguments argv globals_init) as [[a g] | e |] eqn:Hp.
  - rewrite (Hno a g eq_refl). cbn [negb].
    eexists. eexists. split; [reflexivity |]. repeat split.
    + intros e He. apply in_app_or in He. destruct He as [He | [<- | []]].
      * destruct (Hout e He); auto.
      * right. right. eauto.
    + discriminate.
    + eauto.
  - eexists. eexists. split; [reflexivity |]. repeat split; try discriminate.
    intros e0 He. destruct (Hout e0 He); auto.
  - eexists. eexists. split; [reflexivity |]. repeat split; try discriminate.
    intros e0 He. destruct (Hout e0 He); auto.
Qed.

(** X14: the tree is walked exactly when the command line is accepted.  In a
    run followed for at least one pass of [find], a directory is opened if
    and only if [parse_arguments] returned a configuration with [ok] still
    true; a usage error, an exception or a missing argument all end the run
    before the first [opendir]. *)
Theorem traversal_iff_accepted :
  forall w argv,
    (0 < fuel w)%nat ->
    (existsb is_opendir (fst (main w argv)) = true
     <-> exists a g,
        parse_arguments argv globals_init = Ret (a, g) /\ ok g = true).
Proof.
  intros w argv Hfuel. split.
  - intro Hopen.
    destruct (parse_arguments argv globals_init) as [[a g] | e |] eqn:Hp.
    + destruct (ok g) eqn:Hok; [eauto |]. exfalso.
      destruct (main_not_accepted w argv) as (out & t & Hm & Hout & _).
      { intros a' g' H'. rewrite Hp in H'. inversion H'; subst. exact Hok. }
      rewrite Hm in Hopen. cbn [fst] in Hopen.
      apply existsb_exists in Hopen. destruct Hopen as (e & He & Hd).
      destruct (Hout e He) as [-> | [-> | (rsn & ->)]]; discriminate Hd.
    + exfalso.
      destruct (main_not_accepted w argv) as (out & t & Hm & Hout & _).
      { intros a' g' H'. rewrite Hp in H'. discriminate H'. }
      rewrite Hm in Hopen. cbn [fst] in Hopen.
      apply existsb_exists in Hopen. destruct Hopen as (e0 & He & Hd).
      destruct (Hout e0 He) as [-> | [-> | (rsn & ->)]]; discriminate Hd.
    + exfalso.
      destruct (main_not_accepted w argv) as (out & t & Hm & Hout & _).
      { intros a' g' H'. rewrite Hp in H'. discriminate H'. }
      rewrite Hm in Hopen. cbn [fst] in Hopen.
      apply existsb_exists in Hopen. destruct Hopen as (e0 & He & Hd).
      destruct (Hout e0 He) as [-> | [-> | (rsn & ->)]]; discriminate Hd.
  - intros (a & g & Hp & Hok). now apply traversal_is_visible with (a := a) (g := g).
Qed.

Lemma traversal_iff_accepted_witness :
  existsb is_opendir (fst (main Demo.system ["find"; "root"; "-name"; "a.txt"]))
  = true.
Proof.
  refine (proj2 (traversal_iff_accepted Demo.system
                   ["find"; "root"; "-name"; "a.txt"] _) _).
  - cbn. lia.
  - exists (set_name 1 "a.txt" (set_path "root" usage_default)), globals_init.
    split; reflexivity.
Defined.

Lemma execute_outcomes (w : world) (filepath : string) (result : list string) :
  (forall line, ~ In (Cout line) (fst (execute w filepath result)))
  /\ (forall code,
         snd (execute w filepath result) = Some (Exit code) ->
         code = EXIT_FAILURE
         /\ (fork_ret w = -1
             \/ (fork_ret w = 0 /\ execv_ret w = Some (-1))
             \/ (fork_ret w <> 0 /\ fork_ret w <> -1
                 /\ exists status, In (-1, status) (waits w)))).
Proof.
  unfold execute. split.
  - intros line Hin.
    destruct (fork_ret w =? -1);
      [destruct Hin as [H | [H | []]]; discriminate H |].
    destruct (fork_ret w =? 0).
    + destruct (execv_ret w) as [err |]; [destruct (err =? -1) |];
        cbn [fst In] in Hin;
        repeat match goal with
               | H : _ \/ _ |- _ => destruct H as [H | H]
               end; try discriminate; contradiction.
    + destruct (wait_loop_outcomes (waits w)) as (Hev & _).
      destruct (wait_loop (waits w)) as [es t]. cbn [fst] in *.
      destruct Hin as [H | Hin]; [discriminate H |].
      destruct (Hev _ Hin) as [H | [H | (fmt & arg & H)]]; discriminate H.
  - intros code.
    destruct (fork_ret w =? -1) eqn:H1.
    + apply Z.eqb_eq in H1. cbn [snd]. intro H. inversion H; subst. auto.
    + destruct (fork_ret w =? 0) eqn:H0.
      * apply Z.eqb_eq in H0.
        destruct (execv_ret w) as [err |]; [| discriminate].
        destruct (err =? -1) eqn:He; [| discriminate].
        apply Z.eqb_eq in He. subst err. cbn [snd]. intro H.
        inversion H; subst. auto.
      * apply Z.eqb_neq in H0, H1.
        destruct (wait_loop_outcomes (waits w)) as (_ & _ & Hfail & Hall).
        destruct (wait_loop (waits w)) as [es t]. cbn [snd] in *.
        intro H. subst t.
        destruct Hall as [Ha | [Ha | Ha]]; try discriminate Ha.
        inversion Ha; subst. split; [reflexivity |].
        right. right. auto.
Qed.

(** X15: how a run can end through [exit] or [return].  The status is 0 or
    [EXIT_FAILURE].  It is [EXIT_FAILURE] only after a usage error of the
    parser or, with the arguments accepted, an executable configured and the
    walk ended, after a failed [fork], a failed [execv] in the child, or a
    failed [waitpid] in the parent.  It is 0 only when the arguments were
    accepted and the walk ended; traversal failures never change it. *)
Theorem exit_status_causes :
  forall w argv code,
    snd (main w argv) = Exit code ->
    (code = 0
     /\ exists a g,
         parse_arguments argv globals_init = Ret (a, g) /\ ok g = true
         /\ finished (find (fuel w) (fs w) a []) = true)
    \/ (code = EXIT_FAILURE
        /\ ((exists a g,
                parse_arguments argv globals_init = Ret (a, g) /\ ok g = false)
            \/ (exists a g,
                   parse_arguments argv globals_init = Ret (a, g)
                   /\ ok g = true /\ needs_exec a <> 0
                   /\ finished (find (fuel w) (fs w) a []) = true
                   /\ (fork_ret w = -1
                       \/ (fork_ret w = 0 /\ execv_ret w = Some (-1))
                       \/ (fork_ret w <> 0 /\ fork_ret w <> -1
                           /\ exists status, In (-1, status) (waits w)))))).
Proof.
  intros w argv code Hexit.
  destruct (parse_arguments argv globals_init) as [[a g] | e |] eqn:Hp.
  - destruct (ok g) eqn:Hok.
    + rewrite (main_accepted w argv a g Hp Hok) in Hexit. cbv zeta in Hexit.
      destruct (finished (find (fuel w) (fs w) a [])) eqn:Hfin;
        cbn [negb] in Hexit; [| discriminate Hexit].
      destruct (needs_exec a =? 0) eqn:Hx; cbn [negb] in Hexit.
      * inversion Hexit; subst. left. split; [reflexivity |]. eauto.
      * apply Z.eqb_neq in Hx.
        destruct (execute_outcomes w (exec_path a)
                    (result (find (fuel w) (fs w) a []))) as [_ Hcause].
        destruct (execute w (exec_path a) (result (find (fuel w) (fs w) a [])))
          as [es [t |]]; cbn [snd] in *.
        -- subst t. destruct (Hcause code eq_refl) as [-> Hc].
           right. split; [reflexivity |]. right. exists a, g. auto 10.
        -- inversion Hexit; subst. left. split; [reflexivity |]. eauto.
    + right.
      destruct (main_not_accepted w argv) as (out & t & Hm & _ & Hne & _).
      { intros a' g' H'. rewrite Hp in H'. inversion H'; subst. exact Hok. }
      unfold main in Hexit. rewrite Hp, Hok in Hexit. cbn [negb snd] in Hexit.
      inversion Hexit; subst. split; [reflexivity |]. left. eauto.
  - unfold main in Hexit. rewrite Hp in Hexit. discriminate Hexit.
  - unfold main in Hexit. rewrite Hp in Hexit. discriminate Hexit.
Qed.

Lemma exit_status_causes_witness :
  exists a g,
    parse_arguments ["find"; "root"] globals_init = Ret (a, g)
    /\ ok g = true
    /\ finished (find (fuel Demo.system) (fs Demo.system) a []) = true.
Proof.
  destruct (exit_status_causes Demo.system ["find"; "root"] 0 eq_refl)
    as [[_ H] | [H _]]; [exact H | discriminate H].
Defined.



(** ** Edges *)

(** X17: a size threshold of 2^63 or more does not survive the assignment to
    [off_t]: it is stored as the number minus 2^64, which is negative.  With
    the sign [+] the filter then accepts every entry of non-negative size,
    and with [-] or [=] none.  Below 2^63 the threshold is stored as given. *)
Theorem huge_size_threshold_wraps :
  forall v root sb nm,
    0 <= v < 2 ^ 64 ->
    (v < 2 ^ 63 -> to_off_t v = v)
    /\ (2 ^ 63 <= v ->
        to_off_t v = v - 2 ^ 64
        /\ (0 <= st_size sb ->
            check (set_size 1 (to_off_t v) (set_path root usage_default)) sb nm
            = true
            /\ check (set_size (-1) (to_off_t v) (set_path root usage_default))
                     sb nm = false
            /\ check (set_size 0 (to_off_t v) (set_path root usage_default))
                     sb nm = false)).
Proof.
  intros v root sb nm Hv. split.
  - intro Hlt. unfold to_off_t. apply Z.ltb_lt in Hlt. now rewrite Hlt.
  - intro Hge.
    assert (Hw : to_off_t v = v - 2 ^ 64).
    { unfold to_off_t. apply Z.ltb_ge in Hge. now rewrite Hge. }
    split; [exact Hw |]. intro Hsz.
    rewrite !check_size_only, Hw.
    change (1 =? NOSIZE) with false. change (-1 =? NOSIZE) with false.
    change (0 =? NOSIZE) with false. cbn [Z.eqb Pos.eqb].
    repeat split.
    + apply Z.ltb_lt. lia.
    + apply Z.ltb_ge. lia.
    + apply Z.eqb_neq. lia.
Qed.

Lemma huge_size_threshold_wraps_witness :
  parse_arguments ["find"; "root"; "-size"; "+18446744073709551615"] globals_init
  = Ret (set_size 1 (-1) (set_path "root" usage_default), globals_init)
  /\ check (set_size 1 (to_off_t 18446744073709551615)
                     (set_path "root" usage_default))
           (Demo.regular 11 50) "a.txt" = true.
Proof.
  split; [reflexivity |].
  assert (Hv : 0 <= 18446744073709551615 < 2 ^ 64)
    by (split; [discriminate | reflexivity]).
  assert (Hge : 2 ^ 63 <= 18446744073709551615) by discriminate.
  assert (Hsz : 0 <= st_size (Demo.regular 11 50)) by discriminate.
  destruct (huge_size_threshold_wraps 18446744073709551615 "root"
              (Demo.regular 11 50) "a.txt" Hv) as [_ H].
  destruct (H Hge) as [_ H2]. destruct (H2 Hsz) as [H3 _]. exact H3.
Defined.

(** X18: a root that cannot be opened is not an error of the run.  With the
    arguments accepted and no executable configured, the walk makes the one
    failed [opendir], reports it, and ends with nothing matched; [main]
    prints no path and returns 0. *)
Theorem unreadable_root_exits_zero :
  forall w argv a g,
    parse_arguments argv globals_init = Ret (a, g) -> ok g = true ->
    needs_exec a = 0 ->
    opendir (fs w) (path a) = None ->
    (0 < fuel w)%nat ->
    result (find (fuel w) (fs w) a []) = []
    /\ main w argv
       = ([Cout help; SysOpendir (path a); Perror "opendir"], Exit 0).
Proof.
  intros w argv a g Hp Hok Hx Ho Hfuel.
  assert (Hfind : find (fuel w) (fs w) a []
                  = {| queue := []; result := [];
                       events := [SysOpendir (path a); Perror "opendir"] |}).
  { unfold find, walk_init. destruct (fuel w) as [| n]; [lia |].
    cbn [walk queue]. unfold expand. rewrite Ho. cbn [emit events result queue app].
    now rewrite walk_empty. }
  split; [now rewrite Hfind |].
  rewrite (main_accepted w argv a g Hp Hok). cbv zeta.
  rewrite Hfind, Hx. cbn [finished queue negb Z.eqb events result map].
  replace (Z.of_nat (List.length argv) <=? 1) with false; [reflexivity |].
  symmetry. apply Z.leb_gt. unfold parse_arguments in Hp.
  destruct argv as [| prog [| root tail]]; try discriminate Hp.
  cbn [List.length]. lia.
Qed.

Lemma unreadable_root_exits_zero_witness :
  main Demo.system ["find"; "nowhere"]
  = ([Cout help; SysOpendir "nowhere"; Perror "opendir"], Exit 0).
Proof.
  assert (Hfuel : (0 < fuel Demo.system)%nat) by (cbn; lia).
  destruct (unreadable_root_exits_zero Demo.system ["find"; "nowhere"]
              (set_path "nowhere" usage_default) globals_init
              eq_refl eq_refl eq_refl eq_refl Hfuel) as [_ H].
  exact H.
Defined.
